(** * pdf2markdown: the text pipeline of [pdf_to_markdown_app.py]

    A shallow embedding of the extraction, cleaning and orchestration code of
    the application, and the properties of it that the specification states.

    Python strings are sequences of Unicode code points; the program uses
    them through [str.splitlines], [str.split], [str.strip], [str.replace],
    [str.join] and five regular expressions of the [re] module.  The
    embedding keeps that level: a string is a list of code points, the
    library functions are written out, and the regular expressions are
    values of a small pattern type run by a backtracking matcher with
    Python's priorities (leftmost match, greedy repetition). *)

From Stdlib Require Import List NArith Arith Bool Lia String Ascii Sorted.
From stdpp Require Import gmap strings.
Import ListNotations.

Set Default Proof Using "Type".

(* ================================================================== *)
(** * Characters and strings *)
(* ================================================================== *)

(** A character is its Unicode code point. *)
Definition char := N.
Bind Scope N_scope with char.
Definition str := list char.

Definition LF : char := 10%N.
Definition CR : char := 13%N.
Definition SP : char := 32%N.
Definition HYPHEN : char := 45%N.
Definition DOT : char := 46%N.
Definition SLASH : char := 47%N.

(** ASCII literals of the source, as code points. *)
Definition py (s : string) : str :=
  List.map N_of_ascii (list_ascii_of_string s).

Definition between (lo hi c : char) : bool := ((lo <=? c) && (c <=? hi))%N.

(** [Py_UNICODE_ISSPACE]: the characters [str.strip], [str.split] and the
    pattern [\s] treat as whitespace.  The list is closed: it is the same in
    every Unicode version Python 3 ships. *)
Definition is_space (c : char) : bool :=
  between 9 13 c || between 28 32 c || (c =? 133)%N || (c =? 160)%N
  || (c =? 5760)%N || between 8192 8202 c || (c =? 8232)%N || (c =? 8233)%N
  || (c =? 8239)%N || (c =? 8287)%N || (c =? 12288)%N.

(** [Py_UNICODE_ISLINEBREAK]: the line boundaries of [str.splitlines]. *)
Definition is_linebreak (c : char) : bool :=
  between 10 13 c || between 28 30 c || (c =? 133)%N || (c =? 8232)%N
  || (c =? 8233)%N.

Definition is_lower (c : char) : bool := between 97 122 c.   (* [a-z] *)
Definition is_upper (c : char) : bool := between 65 90 c.    (* [A-Z] *)
Definition is_ascii_digit (c : char) : bool := between 48 57 c.

(** The patterns [\d] and [\w] follow the Unicode character database
    (decimal digits; alphanumerics and the underscore).  On ASCII they are
    fixed; above it the tables of the Python runtime decide, and they are a
    parameter of the development. *)
Class UnicodeData := {
  uni_decimal : char -> bool;   (* Py_UNICODE_ISDECIMAL above U+007F *)
  uni_alnum : char -> bool      (* Py_UNICODE_ISALNUM above U+007F *)
}.

Section Classes.
Context {U : UnicodeData}.

Definition is_digit (c : char) : bool :=
  if (c <? 128)%N then is_ascii_digit c else uni_decimal c.

Definition is_word (c : char) : bool :=
  if (c <? 128)%N
  then is_ascii_digit c || is_lower c || is_upper c || (c =? 95)%N
  else uni_alnum c.

End Classes.

(** A runtime whose tables hold nothing above ASCII; it serves to run the
    definitions on ASCII text, where the tables are not consulted. *)
Definition ascii_tables : UnicodeData :=
  {| uni_decimal := fun _ => false; uni_alnum := fun _ => false |}.

(* ------------------------------------------------------------------ *)
(** ** The [str] methods the program calls *)
(* ------------------------------------------------------------------ *)

(** [sep.join(parts)] *)
Fixpoint join (sep : str) (parts : list str) : str :=
  match parts with
  | [] => []
  | [p] => p
  | p :: ps => p ++ sep ++ join sep ps
  end.

(** [c :: ] in front of the first piece of a non-empty list of pieces. *)
Definition cons_hd (c : char) (l : list str) : list str :=
  match l with
  | p :: ps => (c :: p) :: ps
  | [] => [[c]]
  end.

(** [text.splitlines()]: split at every line boundary, [\r\n] counting as
    one; the boundaries are dropped and a final boundary opens no line. *)
Fixpoint splitlines (s : str) : list str :=
  match s with
  | [] => []
  | c :: s' =>
      if is_linebreak c then
        [] :: match s' with
              | d :: s'' =>
                  if ((c =? CR) && (d =? LF))%N then splitlines s''
                  else splitlines s'
              | [] => []
              end
      else cons_hd c (splitlines s')
  end.

(** [text.split()]: the maximal runs of non-whitespace characters.
    [cur] is the token being read, last character first. *)
Fixpoint split_ws_from (cur : str) (s : str) : list str :=
  match s with
  | [] => match cur with [] => [] | _ => [rev cur] end
  | c :: s' =>
      if is_space c then
        match cur with
        | [] => split_ws_from [] s'
        | _ => rev cur :: split_ws_from [] s'
        end
      else split_ws_from (c :: cur) s'
  end.

Definition split_ws (s : str) : list str := split_ws_from [] s.

(** [text.strip()] *)
Fixpoint lstrip (s : str) : str :=
  match s with
  | c :: s' => if is_space c then lstrip s' else s
  | [] => []
  end.

Definition rstrip (s : str) : str := rev (lstrip (rev s)).
Definition strip (s : str) : str := rstrip (lstrip s).

(** [text.replace(a, b)] for one-character [a] and [b]. *)
Definition replace (a b : char) (s : str) : str :=
  List.map (fun c => if (c =? a)%N then b else c) s.

(** [str(n)] for a non-negative integer. *)
Fixpoint digits_of_uint (d : Decimal.uint) : str :=
  match d with
  | Decimal.Nil => []
  | Decimal.D0 d => 48%N :: digits_of_uint d
  | Decimal.D1 d => 49%N :: digits_of_uint d
  | Decimal.D2 d => 50%N :: digits_of_uint d
  | Decimal.D3 d => 51%N :: digits_of_uint d
  | Decimal.D4 d => 52%N :: digits_of_uint d
  | Decimal.D5 d => 53%N :: digits_of_uint d
  | Decimal.D6 d => 54%N :: digits_of_uint d
  | Decimal.D7 d => 55%N :: digits_of_uint d
  | Decimal.D8 d => 56%N :: digits_of_uint d
  | Decimal.D9 d => 57%N :: digits_of_uint d
  end.

Definition str_of_nat (n : nat) : str := digits_of_uint (Nat.to_uint n).

(* ================================================================== *)
(** * The [re] module *)
(* ================================================================== *)

(** The patterns of the program are built from single-character atoms
    (literals and classes), greedy repetition of an atom, [^], [$],
    capturing groups and concatenation. *)
Inductive regex : Type :=
| Eps                              (* the empty pattern *)
| Cls (p : char -> bool)           (* one character of a class *)
| Star (p : char -> bool)          (* atom*, greedy *)
| Bol                              (* ^ *)
| Eol                              (* $ *)
| Grp (r : regex)                  (* ( r ) *)
| Cat (r1 r2 : regex).

Definition Lit (c : char) : regex := Cls (N.eqb c).
Definition Plus (p : char -> bool) : regex := Cat (Cls p) (Star p).
Fixpoint Rep (n : nat) (p : char -> bool) : regex :=
  match n with
  | O => Eps
  | S k => Cat (Cls p) (Rep k p)
  end.

Declare Scope regex_scope.
Delimit Scope regex_scope with re.
Infix "·" := Cat (at level 60, right associativity) : regex_scope.

(** A point of a match: the position in the subject, the text still to be
    read, and the groups closed so far (in closing order). *)
Record mstate := MState { pos : nat; rest : str; caps : list str }.

(** Greedy repetition of an atom: the longest run first, then each shorter
    one, down to the empty run. *)
Fixpoint star (p : char -> bool) (i : nat) (s : str) (cs : list str)
  : list mstate :=
  match s with
  | c :: s' =>
      if p c then star p (S i) s' cs ++ [MState i s cs] else [MState i s cs]
  | [] => [MState i s cs]
  end.

(** All the ways [r] matches at [st], in the order a backtracking matcher
    tries them: the head is the match Python reports. *)
Fixpoint ms (r : regex) (st : mstate) : list mstate :=
  match r with
  | Eps => [st]
  | Cls p =>
      match rest st with
      | c :: s' => if p c then [MState (S (pos st)) s' (caps st)] else []
      | [] => []
      end
  | Star p => star p (pos st) (rest st) (caps st)
  | Bol => match pos st with O => [st] | S _ => [] end
  | Eol =>
      (* without MULTILINE: at the end, or before a final newline *)
      match rest st with
      | [] => [st]
      | [c] => if (c =? LF)%N then [st] else []
      | _ => []
      end
  | Grp r' =>
      List.map
        (fun m => MState (pos m) (rest m)
                    (caps m ++ [firstn (pos m - pos st) (rest st)]))
        (ms r' st)
  | Cat r1 r2 => flat_map (ms r2) (ms r1 st)
  end.

(** Whether a pattern can match without reading a character. *)
Fixpoint nullable (r : regex) : bool :=
  match r with
  | Cls _ => false
  | Eps | Star _ | Bol | Eol => true
  | Grp r' => nullable r'
  | Cat r1 r2 => nullable r1 && nullable r2
  end.

(** A match attempt at position [i], with [s] the text from there on. *)
Definition match_at (r : regex) (i : nat) (s : str) : option mstate :=
  match ms r (MState i s []) with
  | m :: _ => if Nat.ltb i (pos m) then Some m else None
  | [] => None
  end.

(** [re.match(r, s)] as a truth value. *)
Definition re_match (r : regex) (s : str) : bool :=
  match ms r (MState 0 s []) with
  | _ :: _ => true
  | [] => false
  end.

(** A replacement template: literal text and group references [\k]. *)
Inductive repl_item := Txt (t : str) | Ref (k : nat).

Definition expand (tpl : list repl_item) (cs : list str) : str :=
  flat_map (fun it => match it with
                      | Txt t => t
                      | Ref k => nth (k - 1) cs []
                      end) tpl.

(** [re.sub(r, tpl, s)]: the non-overlapping matches, leftmost first, are
    replaced by the expanded template; the text between them is copied.
    None of the program's patterns matches the empty string (see
    [patterns_consume] below), so Python's rules for empty matches are left
    out: [match_at] reports only matches that consume a character. *)
Fixpoint sub_loop (r : regex) (tpl : list repl_item) (fuel i : nat) (s : str)
  : str :=
  match fuel with
  | O => s
  | S fuel' =>
      match match_at r i s with
      | Some m => expand tpl (caps m) ++ sub_loop r tpl fuel' (pos m) (rest m)
      | None =>
          match s with
          | c :: s' => c :: sub_loop r tpl fuel' (S i) s'
          | [] => []
          end
      end
  end.

Definition re_sub (r : regex) (tpl : list repl_item) (s : str) : str :=
  sub_loop r tpl (S (length s)) 0 s.

(** [re.split(r, s)] for a pattern without groups: the pieces of text
    between the non-overlapping matches. *)
Fixpoint split_loop (r : regex) (fuel i : nat) (s : str) : list str :=
  match fuel with
  | O => [s]
  | S fuel' =>
      match match_at r i s with
      | Some m => [] :: split_loop r fuel' (pos m) (rest m)
      | None =>
          match s with
          | c :: s' => cons_hd c (split_loop r fuel' (S i) s')
          | [] => [[]]
          end
      end
  end.

Definition re_split (r : regex) (s : str) : list str :=
  split_loop r (S (length s)) 0 s.

(* ================================================================== *)
(** * The program *)
(* ================================================================== *)

(** The sidebar options, which the functions read as module globals
    (lines 30-36). *)
Record config := Config {
  enable_ocr : bool;
  tesseract_cmd_path : str;     (* empty: not given *)
  show_logs : bool;
  ocr_dpi : nat;
  split_words : bool
}.

(** What the program shows the user besides its result. *)
Inductive note :=
| Info (m : str)        (* st.sidebar.info *)
| Warning (m : str)     (* st.warning *)
| Error (m : str).      (* st.error *)

(** A raised exception: its message, and whether it is an instance of
    [Exception] (what [except Exception] catches) or only of
    [BaseException] ([KeyboardInterrupt], [SystemExit]). *)
Record exn := Exn { is_Exception : bool; message : str }.

Inductive outcome (A : Type) :=
| Ret (a : A)
| Raise (e : exn).
Arguments Ret {A} a.
Arguments Raise {A} e.

Definition bytes := list Byte.byte.

(** The files on disk, by path. *)
Abbreviation files := (gmap string bytes).

(** The libraries the program calls into and the machine it runs on. *)
Class World := {
  (** a page of an opened PDF, and a rasterized page *)
  page : Type;
  image : Type;
  (** [pdfplumber.open(path).pages], from the file's content (none: no
      such file) *)
  pdfplumber_open : option bytes -> outcome (list page);
  (** [page.extract_text()] *)
  extract_text : page -> outcome (option str);
  (** [convert_from_path(path, dpi=...)] *)
  convert_from_path : option bytes -> nat -> outcome (list image);
  (** [pytesseract.image_to_string(image)], run with the given command *)
  image_to_string : str -> image -> outcome str;
  (** [wordninja.split], when the module can be imported *)
  wordninja : option (str -> list str);
  (** [markdownify(text, heading_style="ATX")] *)
  markdownify : str -> str;
  (** the name [tempfile.NamedTemporaryFile(suffix=".pdf")] picks *)
  temp_name : files -> string
}.

(** [log_info] (lines 38-41) *)
Definition log_info (cfg : config) (m : str) (notes : list note) : list note :=
  if show_logs cfg then notes ++ [Info m] else notes.

Definition st_error (m : str) (notes : list note) : list note :=
  notes ++ [Error m].

(* ------------------------------------------------------------------ *)
(** ** The text cleaner (lines 43-113) *)
(* ------------------------------------------------------------------ *)

Section Cleaner.
Context {U : UnicodeData}.

Local Open Scope regex_scope.

(** [r'^\s*\d+/\d+\s+\d{4}\s*$'] *)
Definition HEADER : regex :=
  Bol · Star is_space · Plus is_digit · Lit SLASH · Plus is_digit
  · Plus is_space · Rep 4 is_digit · Star is_space · Eol.

(** [r'(\w+)-\n(\w+)'], replaced by [r'\1\2'] *)
Definition HYPHEN_BREAK : regex :=
  Grp (Plus is_word) · Lit HYPHEN · Lit LF · Grp (Plus is_word).

(** [r'\.([A-Z])'], replaced by [r'. \1'] *)
Definition DOT_UPPER : regex := Lit DOT · Grp (Cls is_upper).

(** [r'\n\s*\n'] *)
Definition PARA_BREAK : regex := Lit LF · Star is_space · Lit LF.

(** [r'([a-z])([A-Z])'], replaced by [r'\1 \2'] *)
Definition LOWER_UPPER : regex := Grp (Cls is_lower) · Grp (Cls is_upper).

(** The loop of [remove_page_headers] (lines 49-53). *)
Fixpoint filter_lines (lines filtered_lines : list str) : list str :=
  match lines with
  | [] => filtered_lines
  | line :: lines' =>
      if re_match HEADER line
      then filter_lines lines' filtered_lines
      else filter_lines lines' (filtered_lines ++ [line])
  end.

Definition remove_page_headers (text : str) : str :=
  join [LF] (filter_lines (splitlines text) []).

Fixpoint str_eqb (a b : str) : bool :=
  match a, b with
  | [], [] => true
  | x :: a', y :: b' => (x =? y)%N && str_eqb a' b'
  | _, _ => false
  end.

(** The loop of [split_concatenated_words] (lines 70-80), with
    [wordninja.split] as [segment]. *)
Fixpoint split_each (segment : str -> list str) (words new_words : list str)
  : list str :=
  match words with
  | [] => new_words
  | word :: words' =>
      if Nat.ltb 15 (length word) then
        let split_word := segment word in
        if Nat.ltb 1 (length split_word)
           && negb (str_eqb (join [SP] split_word) word)
        then split_each segment words' (new_words ++ [join [SP] split_word])
        else split_each segment words' (new_words ++ [word])
      else split_each segment words' (new_words ++ [word])
  end.

(** [split_concatenated_words]; without wordninja the text is returned as
    it is (and a warning shown, see [split_warning]). *)
Definition split_concatenated_words (wn : option (str -> list str))
  (text : str) : str :=
  match wn with
  | None => text
  | Some segment => join [SP] (split_each segment (split_ws text) [])
  end.

Definition split_warning (wn : option (str -> list str)) : list note :=
  match wn with
  | None =>
      [Warning (py "wordninja is not installed; skipping concatenated word splitting.")]
  | Some _ => []
  end.

(** Lines 97 and 99 of [clean_extracted_text]. *)
Definition fix_hyphenation (text : str) : str :=
  re_sub HYPHEN_BREAK [Ref 1; Ref 2] text.

Definition space_after_period (text : str) : str :=
  re_sub DOT_UPPER [Txt [DOT; SP]; Ref 1] text.

(** The body of the paragraph loop (lines 105-107). *)
Definition clean_paragraph (para : str) : str :=
  re_sub LOWER_UPPER [Ref 1; Txt [SP]; Ref 2] (strip (replace LF SP para)).

(** The paragraph loop (lines 103-108). *)
Fixpoint clean_paragraphs (paragraphs cleaned_paragraphs : list str)
  : list str :=
  match paragraphs with
  | [] => cleaned_paragraphs
  | para :: paragraphs' =>
      clean_paragraphs paragraphs' (cleaned_paragraphs ++ [clean_paragraph para])
  end.

(** Lines 101-109: split into paragraphs, clean each, rejoin. *)
Definition reflow (text : str) : str :=
  join [LF; LF] (clean_paragraphs (re_split PARA_BREAK text) []).

Definition clean_extracted_text (split_words : bool)
  (wn : option (str -> list str)) (text : str) : str :=
  let text := remove_page_headers text in
  let text := fix_hyphenation text in
  let text := space_after_period text in
  let cleaned_text := reflow text in
  if split_words then split_concatenated_words wn cleaned_text
  else cleaned_text.

End Cleaner.

(* ------------------------------------------------------------------ *)
(** ** The extractors (lines 115-168) *)
(* ------------------------------------------------------------------ *)

(** Line 131: [f"\n\n# Page {page_num}\n\n{page_text}"] *)
Definition pdfplumber_block (page_num : nat) (page_text : str) : str :=
  [LF; LF] ++ py "# Page " ++ str_of_nat page_num ++ [LF; LF] ++ page_text.

(** Line 167: [f"\n\n# Page {i + 1}\n\n{page_text}"] *)
Definition ocr_block (i : nat) (page_text : str) : str :=
  [LF; LF] ++ py "# Page " ++ str_of_nat (i + 1) ++ [LF; LF] ++ page_text.

Section Extractors.
Context {W : World}.

(** One turn of the loop of [extract_text_pdfplumber] (lines 129-131) on
    the result of [page.extract_text()]: a page without text adds nothing. *)
Definition pdfplumber_step (text : str) (page_num : nat)
  (page_text : option str) : str :=
  match page_text with
  | Some (c :: t) => text ++ pdfplumber_block page_num (c :: t)
  | Some [] | None => text
  end.

(** The loop over [enumerate(pdf.pages, start=1)]: the text gathered, and
    the exception that ended the loop early, if one did. *)
Fixpoint pdfplumber_loop (pages : list page) (page_num : nat) (text : str)
  : str * option exn :=
  match pages with
  | [] => (text, None)
  | p :: pages' =>
      match extract_text p with
      | Ret page_text =>
          pdfplumber_loop pages' (S page_num)
            (pdfplumber_step text page_num page_text)
      | Raise e => (text, Some e)
      end
  end.

(** The handler of lines 132-134: an [Exception] is reported and the text
    gathered so far returned; anything else propagates. *)
Definition pdfplumber_handler (text : str) (e : exn) (notes : list note)
  : list note * outcome str :=
  if is_Exception e
  then (st_error (py "Error extracting text with pdfplumber: " ++ message e) notes,
        Ret text)
  else (notes, Raise e).

Definition extract_text_pdfplumber (fs : files) (pdf_file : string)
  (notes : list note) : list note * outcome str :=
  match pdfplumber_open (fs !! pdf_file) with
  | Raise e => pdfplumber_handler [] e notes
  | Ret pages =>
      match pdfplumber_loop pages 1 [] with
      | (text, None) => (notes, Ret text)
      | (text, Some e) => pdfplumber_handler text e notes
      end
  end.

(** One turn of the loop of [extract_text_ocr] (lines 161-167) on a
    recognized page: the block is added whatever the text. *)
Definition ocr_step (text : str) (i : nat) (page_text : str) : str :=
  text ++ ocr_block i page_text.

(** The loop over [enumerate(images)] (lines 160-167). *)
Fixpoint ocr_loop (cfg : config) (cmd : str) (images : list image) (i : nat)
  (text : str) (notes : list note) : list note * outcome str :=
  match images with
  | [] => (notes, Ret text)
  | img :: images' =>
      let notes :=
        log_info cfg (py "Performing OCR on page " ++ str_of_nat (i + 1)
                      ++ py "...") notes in
      match image_to_string cmd img with
      | Ret page_text =>
          ocr_loop cfg cmd images' (S i) (ocr_step text i page_text) notes
      | Raise e =>
          if is_Exception e then
            ocr_loop cfg cmd images' (S i) text
              (st_error (py "OCR failed on page " ++ str_of_nat (i + 1)
                         ++ py ": " ++ message e) notes)
          else (notes, Raise e)
      end
  end.

(** The command pytesseract runs: the configured path when one is given
    (lines 148-149), its default otherwise. *)
Definition tesseract_cmd (cfg : config) : str :=
  match tesseract_cmd_path cfg with
  | [] => py "tesseract"
  | p => p
  end.

Definition extract_text_ocr (cfg : config) (fs : files) (pdf_file : string)
  (notes : list note) : list note * outcome str :=
  match convert_from_path (fs !! pdf_file) (ocr_dpi cfg) with
  | Raise e =>
      if is_Exception e
      then (st_error (py "Error converting PDF to images: " ++ message e) notes,
            Ret [])
      else (notes, Raise e)
  | Ret images => ocr_loop cfg (tesseract_cmd cfg) images 0 [] notes
  end.

(* ------------------------------------------------------------------ *)
(** ** The orchestrator (lines 183-209) *)
(* ------------------------------------------------------------------ *)

(** What the machine holds between two steps: the files on disk and the
    notifications shown so far. *)
Record machine := Machine { disk : files; shown : list note }.

(** [os.path.exists(p)] and [os.unlink(p)] of the [finally] clause. *)
Definition unlink_if_exists (p : string) (fs : files) : files :=
  match fs !! p with
  | Some _ => delete p fs
  | None => fs
  end.

(** The [try] block (lines 198-203). *)
Definition extract (cfg : config) (fs : files) (tmp_filename : string)
  (notes : list note) : list note * outcome str :=
  if enable_ocr cfg then
    extract_text_ocr cfg fs tmp_filename
      (log_info cfg (py "Using OCR for text extraction.") notes)
  else
    extract_text_pdfplumber fs tmp_filename
      (log_info cfg (py "Using pdfplumber for text extraction.") notes).

(** The value of line 209. *)
Definition text_or_none (extracted_text : str) : option str :=
  match strip extracted_text with
  | [] => None
  | _ :: _ => Some extracted_text
  end.

Definition process_pdf (cfg : config) (file_bytes : bytes) (m : machine)
  : machine * outcome (option str) :=
  let tmp_filename := temp_name (disk m) in
  let fs := <[tmp_filename := file_bytes]> (disk m) in
  let '(notes, r) := extract cfg fs tmp_filename (shown m) in
  (* finally *)
  let fs := unlink_if_exists tmp_filename fs in
  match r with
  | Ret extracted_text => (Machine fs notes, Ret (text_or_none extracted_text))
  | Raise e => (Machine fs notes, Raise e)
  end.

End Extractors.

(* ------------------------------------------------------------------ *)
(** ** The page handler (lines 211-236) *)
(* ------------------------------------------------------------------ *)

Section Main.
Context {U : UnicodeData} {W : World}.

(** What [main] does with an uploaded file: the Markdown offered for
    download, or nothing and an error shown. *)
Definition main (cfg : config) (uploaded_file : bytes) (m : machine)
  : machine * outcome (option str) :=
  match process_pdf cfg uploaded_file m with
  | (m', Raise e) => (m', Raise e)
  | (m', Ret (Some (c :: t))) =>
      let cleaned_text :=
        clean_extracted_text (split_words cfg) wordninja (c :: t) in
      (Machine (disk m')
         (shown m' ++ (if split_words cfg then split_warning wordninja else [])),
       Ret (Some (markdownify cleaned_text)))
  | (m', Ret _) =>
      (Machine (disk m')
         (st_error (py "No text could be extracted from the PDF. It may be empty or an error occurred, nyah~.")
            (shown m')),
       Ret None)
  end.

End Main.

(* ================================================================== *)
(** * Vocabulary of the properties *)
(* ================================================================== *)

(** A world that plays back fixed answers: a PDF given by what each page's
    [extract_text()] yields, a scan given by what recognition yields on
    each image. *)
Definition scripted (pdf : outcome (list (outcome (option str))))
  (scan : outcome (list (outcome str))) (wn : option (str -> list str))
  : World :=
  {| page := outcome (option str);
     image := outcome str;
     pdfplumber_open := fun _ => pdf;
     extract_text := fun p => p;
     convert_from_path := fun _ _ => scan;
     image_to_string := fun _ img => img;
     wordninja := wn;
     markdownify := fun t => t;
     temp_name := fun _ => "/tmp/tmpk3v9x1.pdf"%string |}.

Section Blocks.
Context {W : World}.

(** The pages the digital extractor writes a block for, with their
    numbers: those whose text is not empty, up to the first fault. *)
Fixpoint digital_blocks (pages : list page) (page_num : nat)
  : list (nat * str) :=
  match pages with
  | [] => []
  | p :: pages' =>
      match extract_text p with
      | Ret (Some (c :: t)) =>
          (page_num, c :: t) :: digital_blocks pages' (S page_num)
      | Ret _ => digital_blocks pages' (S page_num)
      | Raise _ => []
      end
  end.

(** The images the OCR extractor writes a block for, with their page
    numbers: those recognized without fault, up to the first exception
    that is not an [Exception]. *)
Fixpoint ocr_blocks (cmd : str) (images : list image) (i : nat)
  : list (nat * str) :=
  match images with
  | [] => []
  | img :: images' =>
      match image_to_string cmd img with
      | Ret t => (i + 1, t) :: ocr_blocks cmd images' (S i)
      | Raise e => if is_Exception e then ocr_blocks cmd images' (S i) else []
      end
  end.

End Blocks.

(** A page heading and the text below it. *)
Definition render_block (b : nat * str) : str :=
  [LF; LF] ++ py "# Page " ++ str_of_nat (fst b) ++ [LF; LF] ++ snd b.

(** Strictly increasing. *)
Definition increasing (l : list nat) : Prop := StronglySorted lt l.

(** What the word-splitting pass may do with a token: keep it, or, when it
    is longer than 15 characters and its segmentation has two pieces or
    more and reads differently, put the pieces joined by spaces. *)
Definition pieces_differ (segment : str -> list str) (word : str) : Prop :=
  2 <= length (segment word) /\ join [SP] (segment word) <> word.

Definition kept_or_split (segment : str -> list str) (word out : str)
  : Prop :=
  (length word <= 15 -> out = word)
  /\ (15 < length word -> pieces_differ segment word ->
      out = join [SP] (segment word))
  /\ (15 < length word -> ~ pieces_differ segment word -> out = word).

(** [m] is [st] after reading the characters [w]. *)
Definition reads (st : mstate) (w : str) (m : mstate) : Prop :=
  rest st = w ++ rest m /\ pos m = pos st + length w /\ caps m = caps st.

(** What it means for a pattern to match between two points, whatever the
    order in which a matcher finds it. *)
Fixpoint matches (r : regex) (st m : mstate) : Prop :=
  match r with
  | Eps => m = st
  | Cls p => exists c, p c = true /\ reads st [c] m
  | Star p => exists w, forallb p w = true /\ reads st w m
  | Bol => pos st = 0 /\ m = st
  | Eol => (rest st = [] \/ rest st = [LF]) /\ m = st
  | Grp r' =>
      exists m', matches r' st m'
                 /\ m = MState (pos m') (rest m')
                          (caps m' ++ [firstn (pos m' - pos st) (rest st)])
  | Cat r1 r2 => exists mid, matches r1 st mid /\ matches r2 mid m
  end.

Definition all (p : char -> bool) (w : str) : Prop := forallb p w = true.

Section Shapes.
Context {U : UnicodeData}.

(** A page-numbering line: digits, a slash, digits, whitespace and four
    digits, with nothing around them but whitespace. *)
Definition header_shape (line : str) : Prop :=
  exists w1 d1 d2 w2 y w3,
    line = w1 ++ d1 ++ [SLASH] ++ d2 ++ w2 ++ y ++ w3
    /\ all is_space w1
    /\ d1 <> [] /\ all is_digit d1
    /\ d2 <> [] /\ all is_digit d2
    /\ w2 <> [] /\ all is_space w2
    /\ length y = 4 /\ all is_digit y
    /\ all is_space w3.

(** The lines that remain of [lines] once the page-numbering lines are
    taken out: the others, as they are and in their order. *)
Inductive kept_lines : list str -> list str -> Prop :=
| kept_nil : kept_lines [] []
| kept_drop line lines kept :
    header_shape line -> kept_lines lines kept ->
    kept_lines (line :: lines) kept
| kept_keep line lines kept :
    ~ header_shape line -> kept_lines lines kept ->
    kept_lines (line :: lines) (line :: kept).

End Shapes.

(** The longest prefix of [s] in the class [p], and what follows it. *)
Fixpoint run (p : char -> bool) (s : str) : str :=
  match s with
  | c :: s' => if p c then c :: run p s' else []
  | [] => []
  end.

Fixpoint after (p : char -> bool) (s : str) : str :=
  match s with
  | c :: s' => if p c then after p s' else s
  | [] => []
  end.

Section HyphenShapes.
Context {U : UnicodeData}.

(** The match of the hyphenation pattern at the head of [s], if there is
    one: a run of word characters up to a hyphen and a newline, and the
    run of word characters after them. *)
Definition hyphen_at (i : nat) (s : str) : option mstate :=
  match run is_word s, after is_word s with
  | c :: u, h :: l :: d :: s' =>
      if (h =? HYPHEN)%N && (l =? LF)%N && is_word d then
        Some (MState (i + length (c :: u) + 2 + length (run is_word (d :: s')))
                (after is_word (d :: s'))
                [c :: u; run is_word (d :: s')])
      else None
  | _, _ => None
  end.

(** [hyphen_joined text out]: [out] is [text] with some of its hyphenated
    line breaks taken out, each of them between two word fragments. *)
Inductive hyphen_joined : str -> str -> Prop :=
| hj_end : hyphen_joined [] []
| hj_copy c s t : hyphen_joined s t -> hyphen_joined (c :: s) (c :: t)
| hj_join u v s t :
    u <> [] -> all is_word u -> v <> [] -> all is_word v ->
    hyphen_joined s t ->
    hyphen_joined (u ++ [HYPHEN; LF] ++ v ++ s) (u ++ v ++ t).


(** No line break of [text] stands between a word character with a
    hyphen and a word character. *)
Definition no_hyphen_break (text : str) : Prop :=
  forall pre a b post,
    text = pre ++ [a; HYPHEN; LF; b] ++ post ->
    is_word a = false \/ is_word b = false.

End HyphenShapes.

(** What is left of [s] after the last newline of its leading run of
    whitespace, when that run has a newline. *)
Fixpoint after_last_newline (s : str) : option str :=
  match s with
  | c :: s' =>
      if is_space c then
        match after_last_newline s' with
        | Some r => Some r
        | None => if (c =? LF)%N then Some s' else None
        end
      else None
  | [] => None
  end.

(** The match of the paragraph-break pattern at the head of [s], if there
    is one: from a newline to the last newline of the whitespace after
    it. *)
Definition para_break_at (i : nat) (s : str) : option mstate :=
  match s with
  | c :: s1 =>
      if (c =? LF)%N then
        match after_last_newline s1 with
        | Some r => Some (MState (S i + (length s1 - length r)) r [])
        | None => None
        end
      else None
  | [] => None
  end.

(** The lowercase-uppercase pass on a paragraph, written as one scan. *)
Fixpoint space_lower_upper (s : str) : str :=
  match s with
  | a :: s1 =>
      match s1 with
      | b :: s2 =>
          if is_lower a && is_upper b
          then a :: SP :: b :: space_lower_upper s2
          else a :: space_lower_upper s1
      | [] => [a]
      end
  | [] => []
  end.

(** A text with a character that is not whitespace. *)
Definition visible (s : str) : Prop := forallb is_space s = false.

(** A text without newline. *)
Definition one_line (s : str) : Prop :=
  forallb (fun c => negb (c =? LF)%N) s = true.

(** A text that neither starts nor ends with whitespace. *)
Definition trimmed (s : str) : Prop :=
  (forall c t, s = c :: t -> is_space c = false)
  /\ (forall t c, s = t ++ [c] -> is_space c = false).

(** A paragraph as the reflow leaves it. *)
Definition reflowed (q : str) : Prop :=
  one_line q /\ trimmed q /\ space_lower_upper q = q.

(** In a list of pieces, all but the last satisfy [P]. *)
Fixpoint all_but_last (P : str -> Prop) (l : list str) : Prop :=
  match l with
  | p :: ((_ :: _) as l') => P p /\ all_but_last P l'
  | _ => True
  end.

(** The period pass, written as one scan. *)
Fixpoint space_periods (s : str) : str :=
  match s with
  | a :: s1 =>
      match s1 with
      | b :: s2 =>
          if (a =? DOT)%N && is_upper b
          then a :: SP :: b :: space_periods s2
          else a :: space_periods s1
      | [] => [a]
      end
  | [] => []
  end.

(** [a] in front of [s] is not a period before an uppercase letter. *)
Definition no_dot_upper_at (a : char) (s : str) : bool :=
  match s with
  | b :: _ => negb ((a =? DOT)%N && is_upper b)
  | [] => true
  end.

(** Nowhere in the text does a period stand before an uppercase letter. *)
Fixpoint dot_upper_free (s : str) : bool :=
  match s with
  | a :: s1 => no_dot_upper_at a s1 && dot_upper_free s1
  | [] => true
  end.

Section BreakFree.
Context {U : UnicodeData}.

(** [a] in front of [s] does not open a hyphenated line break between
    word characters. *)
Definition no_hyphen_break_at (a : char) (s : str) : bool :=
  match s with
  | h :: l :: b :: _ =>
      negb (is_word a && (h =? HYPHEN)%N && (l =? LF)%N && is_word b)
  | _ => true
  end.

(** Nowhere in the text does a hyphen and a newline stand between two
    word characters. *)
Fixpoint hyphen_break_free (s : str) : bool :=
  match s with
  | a :: s1 => no_hyphen_break_at a s1 && hyphen_break_free s1
  | [] => true
  end.

End BreakFree.

(** The text without the characters of a class. *)
Definition without (p : char -> bool) (s : str) : str :=
  List.filter (fun c => negb (p c)) s.

(** A text without line boundary. *)
Definition no_linebreak (s : str) : Prop :=
  forallb (fun c => negb (is_linebreak c)) s = true.

(** [a] in front of [s] is not a lowercase letter before an uppercase
    one. *)
Definition no_lower_upper_at (a : char) (s : str) : bool :=
  match s with
  | b :: _ => negb (is_lower a && is_upper b)
  | [] => true
  end.

(** Nowhere in the text does a lowercase letter stand before an uppercase
    one. *)
Fixpoint lower_upper_free (s : str) : bool :=
  match s with
  | a :: s1 => no_lower_upper_at a s1 && lower_upper_free s1
  | [] => true
  end.

Definition is_info (n : note) : bool :=
  match n with Info _ => true | _ => false end.

Definition is_error (n : note) : bool :=
  match n with Error _ => true | _ => false end.

Section Recognition.
Context {W : World}.

(** Whether the recognition of an image raises. *)
Definition recognition_fails (cmd : str) (img : image) : bool :=
  match image_to_string cmd img with
  | Ret _ => false
  | Raise _ => true
  end.


End Recognition.

(** A token: not empty and without whitespace. *)
Definition token (w : str) : Prop :=
  w <> [] /\ forallb (fun c => negb (is_space c)) w = true.

Section ScanBoundary.
Context {U : UnicodeData}.


End ScanBoundary.


Section SameTexts.
Context {W : World}.

(** Page by page, recognition reads from the image the text that the
    page holds, and that text is not empty. *)
Definition same_texts (cmd : str) (pages : list page) (images : list image)
  : Prop :=
  Forall2 (fun p img =>
             exists c t, extract_text p = Ret (Some (c :: t))
                         /\ image_to_string cmd img = Ret (c :: t))
    pages images.

End SameTexts.


(* ================================================================== *)
(** * Properties of the [str] methods *)
(* ================================================================== *)

Lemma lstrip_nil (s : str) : lstrip s = [] <-> forallb is_space s = true.
Proof.
  induction s as [|c s IH]; simpl; [tauto|].
  destruct (is_space c); simpl; [exact IH|].
  split; discriminate.
Qed.

Lemma lstrip_all_space (s : str) :
  forallb is_space (lstrip s) = true -> lstrip s = [].
Proof.
  induction s as [|c s IH]; simpl; [reflexivity|].
  destruct (is_space c) eqn:E; [exact IH|].
  simpl. rewrite E. discriminate.
Qed.

Lemma forallb_rev {A} (f : A -> bool) (l : list A) :
  forallb f (rev l) = forallb f l.
Proof.
  induction l as [|a l IH]; simpl; [reflexivity|].
  rewrite forallb_app, IH. simpl. rewrite andb_true_r. apply andb_comm.
Qed.

Lemma rstrip_nil (s : str) : rstrip s = [] <-> forallb is_space s = true.
Proof.
  unfold rstrip. rewrite <- (forallb_rev is_space s), <- lstrip_nil.
  split; intros H.
  - apply (f_equal (@rev char)) in H. rewrite rev_involutive in H. exact H.
  - rewrite H. reflexivity.
Qed.

(** [text.strip()] is empty exactly on whitespace-only text. *)
Lemma strip_nil (s : str) : strip s = [] <-> forallb is_space s = true.
Proof.
  unfold strip. rewrite rstrip_nil. split; intros H.
  - apply lstrip_nil, lstrip_all_space, H.
  - apply lstrip_nil in H. rewrite H. reflexivity.
Qed.

(* ================================================================== *)
(** * The orchestrator *)
(* ================================================================== *)

Section Orchestrator.
Context {W : World}.

Lemma text_or_none_spec (t : str) :
  text_or_none t = if forallb is_space t then None else Some t.
Proof.
  unfold text_or_none.
  destruct (forallb is_space t) eqn:E.
  - apply strip_nil in E. rewrite E. reflexivity.
  - destruct (strip t) eqn:S; [|reflexivity].
    apply strip_nil in S. congruence.
Qed.

(** The result of [process_pdf] in terms of what the [try] block
    produced. *)
Lemma process_pdf_result (cfg : config) (file_bytes : bytes) (m : machine) :
  snd (process_pdf cfg file_bytes m) =
  match snd (extract cfg (<[temp_name (disk m) := file_bytes]> (disk m))
               (temp_name (disk m)) (shown m)) with
  | Ret t => Ret (text_or_none t)
  | Raise e => Raise e
  end.
Proof.
  unfold process_pdf.
  destruct (extract _ _ _ _) as [notes [t|e]]; reflexivity.
Qed.

Lemma process_pdf_disk (cfg : config) (file_bytes : bytes) (m : machine) :
  disk (fst (process_pdf cfg file_bytes m)) =
  unlink_if_exists (temp_name (disk m))
    (<[temp_name (disk m) := file_bytes]> (disk m)).
Proof.
  unfold process_pdf.
  destruct (extract _ _ _ _) as [notes [t|e]]; reflexivity.
Qed.

(** C2. [process_pdf] returns [None] exactly when the text the extractor
    returned is empty or all whitespace.  The test is made on the raw
    extracted text: a text with a visible character is returned as it was
    extracted, so [None] is the only empty result, and it is a returned
    value; [process_pdf] raises only what the extractor let through. *)
Theorem process_pdf_none_iff_blank (cfg : config) (file_bytes : bytes)
  (m : machine) :
  let tmp := temp_name (disk m) in
  let extracted :=
    snd (extract cfg (<[tmp := file_bytes]> (disk m)) tmp (shown m)) in
  let result := snd (process_pdf cfg file_bytes m) in
  (result = Ret None <->
   exists t, extracted = Ret t /\ forallb is_space t = true)
  /\ (forall t, extracted = Ret t ->
        result = Ret (if forallb is_space t then None else Some t))
  /\ (forall e, result = Raise e <-> extracted = Raise e).
Proof.
  cbv zeta. rewrite process_pdf_result.
  destruct (snd (extract _ _ _ _)) as [t|e].
  - rewrite text_or_none_spec. repeat split.
    + intros H. exists t. split; [reflexivity|].
      destruct (forallb is_space t); [reflexivity|discriminate].
    + intros (t' & Ht & Hs). injection Ht as <-. rewrite Hs. reflexivity.
    + intros t' Ht. injection Ht as <-. reflexivity.
    + discriminate.
    + discriminate.
  - repeat split.
    + discriminate.
    + intros (t' & Ht & _). discriminate.
    + discriminate.
    + intros H. injection H as <-. reflexivity.
    + intros H. injection H as <-. reflexivity.
Qed.

(** C8. Whatever the extraction did (returned a text, returned a blank
    one, raised), the temporary file [process_pdf] wrote is not on disk
    when it is left; if the name was unused before, the disk is as it
    was. *)
Theorem process_pdf_removes_temp_file (cfg : config) (file_bytes : bytes)
  (m : machine) :
  let tmp := temp_name (disk m) in
  let after := disk (fst (process_pdf cfg file_bytes m)) in
  after !! tmp = None
  /\ (forall p, p <> tmp -> after !! p = disk m !! p)
  /\ (disk m !! tmp = None -> after = disk m).
Proof.
  cbv zeta. rewrite process_pdf_disk. unfold unlink_if_exists.
  rewrite lookup_insert_eq.
  split; [apply lookup_delete_eq|]. split.
  - intros p Hp. rewrite lookup_delete_ne by congruence.
    apply lookup_insert_ne. congruence.
  - intros Hfresh. rewrite delete_insert_eq. apply delete_id, Hfresh.
Qed.

(** C10. With OCR off, [process_pdf] reads neither the DPI nor the path of
    the recognition engine: two configurations that differ only there give
    the same result, the same notifications and the same disk. *)
Theorem process_pdf_ignores_ocr_settings (cfg1 cfg2 : config)
  (file_bytes : bytes) (m : machine) :
  enable_ocr cfg1 = false ->
  enable_ocr cfg2 = false ->
  show_logs cfg1 = show_logs cfg2 ->
  split_words cfg1 = split_words cfg2 ->
  process_pdf cfg1 file_bytes m = process_pdf cfg2 file_bytes m.
Proof.
  intros H1 H2 Hl _. unfold process_pdf, extract, log_info.
  rewrite H1, H2, Hl. reflexivity.
Qed.

End Orchestrator.

(** The three ways out of [process_pdf] are all possible: each is taken
    in some world. *)
Lemma process_pdf_exits :
  let cfg := Config false [] true 300 true in
  let m := Machine ∅ [] in
  snd (process_pdf (W := scripted (Ret [Ret (Some (py "Hi"))]) (Ret []) None)
         cfg [] m) = Ret (Some ([LF; LF] ++ py "# Page 1" ++ [LF; LF] ++ py "Hi"))
  /\ snd (process_pdf (W := scripted (Ret [Ret None]) (Ret []) None)
            cfg [] m) = Ret None
  /\ snd (process_pdf
            (W := scripted (Raise (Exn false (py "KeyboardInterrupt")))
                    (Ret []) None)
            cfg [] m) = Raise (Exn false (py "KeyboardInterrupt")).
Proof. repeat split. Qed.

Lemma process_pdf_ignores_ocr_settings_witness :
  process_pdf (W := scripted (Ret [Ret (Some (py "Hi"))]) (Ret []) None)
    (Config false [] true 300 true) [] (Machine ∅ [])
  = process_pdf (W := scripted (Ret [Ret (Some (py "Hi"))]) (Ret []) None)
      (Config false (py "/usr/bin/tesseract") true 600 true) []
      (Machine ∅ []).
Proof.
  apply process_pdf_ignores_ocr_settings; reflexivity.
Defined.


(* ================================================================== *)
(** * The extractors *)
(* ================================================================== *)

Lemma ocr_block_eq (i : nat) (t : str) :
  ocr_block i t = pdfplumber_block (i + 1) t.
Proof. reflexivity. Qed.

Lemma pdfplumber_block_render (n : nat) (t : str) :
  pdfplumber_block n t = render_block (n, t).
Proof. reflexivity. Qed.

Section BlockFormat.
Context {W : World}.

(** On pages and images that hold the same texts the two loops gather
    the same text, and neither ends early. *)
Lemma loops_same_texts (cfg : config) (cmd : str) (pages : list page)
  (images : list image) :
  same_texts cmd pages images ->
  forall i text notes,
    snd (pdfplumber_loop pages (S i) text) = None
    /\ snd (ocr_loop cfg cmd images i text notes)
       = Ret (fst (pdfplumber_loop pages (S i) text)).
Proof.
  induction 1 as [|p img pages images (c & t & Hp & Hi) _ IH];
    intros i text notes.
  - split; reflexivity.
  - cbn [pdfplumber_loop ocr_loop]. rewrite Hp, Hi.
    cbn [pdfplumber_step]. unfold ocr_step.
    rewrite ocr_block_eq, Nat.add_1_r. apply IH.
Qed.

(** C9. For every page index [i] and every page text, empty or not, the
    block that the OCR extractor appends for a recognized page (line 167)
    is, character for character, the block that the digital extractor
    appends for a page of the number [i + 1] and that text (line 131): it
    is what the OCR loop adds to the text gathered so far, and what the
    digital loop adds for a page that has a text.  So on a document whose
    pages all have a text, which recognition reads as it is from the
    images, the two extractors return the same text. *)
Theorem ocr_block_matches_digital_block :
  (forall i t, ocr_block i t = pdfplumber_block (i + 1) t)
  /\ (forall text i t,
        ocr_step text i t = text ++ pdfplumber_block (i + 1) t)
  /\ (forall text n c t,
        pdfplumber_step text n (Some (c :: t))
        = text ++ pdfplumber_block n (c :: t))
  /\ (forall cfg fs pdf_file notes notes' pages images,
        pdfplumber_open (fs !! pdf_file) = Ret pages ->
        convert_from_path (fs !! pdf_file) (ocr_dpi cfg) = Ret images ->
        same_texts (tesseract_cmd cfg) pages images ->
        exists out,
          snd (extract_text_pdfplumber fs pdf_file notes) = Ret out
          /\ snd (extract_text_ocr cfg fs pdf_file notes') = Ret out).
Proof.
  split; [exact ocr_block_eq|].
  split; [intros text i t; unfold ocr_step; rewrite ocr_block_eq; reflexivity|].
  split; [reflexivity|].
  intros cfg fs pdf_file notes notes' pages images Ho Hc Hs.
  unfold extract_text_pdfplumber, extract_text_ocr. rewrite Ho, Hc.
  destruct (loops_same_texts cfg _ pages images Hs 0 [] notes') as [H1 H2].
  destruct (pdfplumber_loop pages 1 []) as [text e]. cbn [fst snd] in H1, H2.
  subst e. exists text. split; [reflexivity|exact H2].
Qed.

End BlockFormat.

Section ExtractorBlocks.
Context {W : World}.

Lemma pdfplumber_loop_blocks (pages : list page) (n : nat) (text : str) :
  fst (pdfplumber_loop pages n text)
  = text ++ flat_map render_block (digital_blocks pages n).
Proof.
  revert n text. induction pages as [|p pages IH]; intros n text; simpl.
  - symmetry. apply app_nil_r.
  - destruct (extract_text p) as [[[|c t]|]|e]; simpl.
    + apply IH.
    + rewrite IH, <- app_assoc. reflexivity.
    + apply IH.
    + symmetry. apply app_nil_r.
Qed.

Lemma digital_blocks_numbers (pages : list page) (n : nat) :
  Forall (le n) (List.map fst (digital_blocks pages n))
  /\ increasing (List.map fst (digital_blocks pages n)).
Proof.
  revert n. induction pages as [|p pages IH]; intros n; simpl.
  - split; constructor.
  - destruct (IH (S n)) as [Hle Hinc].
    assert (Hle' : Forall (le n) (List.map fst (digital_blocks pages (S n)))).
    { eapply Forall_impl; [exact Hle|]. intros; simpl in *; lia. }
    destruct (extract_text p) as [[[|c t]|]|e]; simpl;
      try (split; [exact Hle'|exact Hinc]); try (split; constructor).
    + lia.
    + exact Hle'.
    + exact Hinc.
    + exact Hle.
Qed.

Lemma digital_blocks_length (pages : list page) (n : nat) :
  length (digital_blocks pages n) <= length pages.
Proof.
  revert n. induction pages as [|p pages IH]; intros n; simpl; [lia|].
  destruct (extract_text p) as [[[|c t]|]|e]; simpl;
    try (specialize (IH (S n))); lia.
Qed.

Lemma digital_blocks_all (pages : list page) (n : nat) :
  Forall (fun p => exists c t, extract_text p = Ret (Some (c :: t))) pages ->
  List.map fst (digital_blocks pages n) = seq n (length pages).
Proof.
  intros H. revert n. induction H as [|p pages (c & t & Hp) _ IH]; intros n.
  - reflexivity.
  - simpl. rewrite Hp. simpl. f_equal. apply IH.
Qed.

Lemma digital_blocks_origin (pages : list page) (n k : nat) (t : str) :
  In (k, t) (digital_blocks pages n) ->
  n <= k /\ exists p, nth_error pages (k - n) = Some p
                      /\ extract_text p = Ret (Some t) /\ t <> [].
Proof.
  revert n. induction pages as [|p pages IH]; intros n; simpl; [tauto|].
  assert (Hrec : In (k, t) (digital_blocks pages (S n)) ->
                 n <= k /\ exists p0, nth_error (p :: pages) (k - n) = Some p0
                      /\ extract_text p0 = Ret (Some t) /\ t <> []).
  { intros Hin. destruct (IH _ Hin) as (Hle & q & Hq & Hx).
    split; [lia|]. exists q. split; [|exact Hx].
    replace (k - n) with (S (k - S n)) by lia. exact Hq. }
  destruct (extract_text p) as [[[|c t']|]|e] eqn:Hp; simpl; try exact Hrec;
    try tauto.
  intros [Heq|Hin]; [|exact (Hrec Hin)].
  injection Heq as <- <-. split; [lia|]. exists p.
  rewrite Nat.sub_diag. simpl. split; [reflexivity|]. split; [exact Hp|].
  discriminate.
Qed.

Lemma ocr_loop_blocks (cfg : config) (cmd : str) (images : list image)
  (i : nat) (text : str) (notes : list note) :
  match snd (ocr_loop cfg cmd images i text notes) with
  | Ret out => out = text ++ flat_map render_block (ocr_blocks cmd images i)
  | Raise _ => True
  end.
Proof.
  revert i text notes.
  induction images as [|img images IH]; intros i text notes; simpl.
  - symmetry. apply app_nil_r.
  - destruct (image_to_string cmd img) as [t|e].
    + specialize (IH (S i) (ocr_step text i t)
                    (log_info cfg (py "Performing OCR on page " ++ str_of_nat (i + 1) ++ py "...") notes)).
      destruct (snd (ocr_loop _ _ _ _ _ _)); [|exact I].
      rewrite IH. unfold ocr_step. rewrite <- app_assoc. reflexivity.
    + destruct (is_Exception e); [apply IH|exact I].
Qed.

Lemma ocr_blocks_numbers (cmd : str) (images : list image) (i : nat) :
  Forall (lt i) (List.map fst (ocr_blocks cmd images i))
  /\ increasing (List.map fst (ocr_blocks cmd images i)).
Proof.
  revert i. induction images as [|img images IH]; intros i; simpl.
  - split; constructor.
  - destruct (IH (S i)) as [Hlt Hinc].
    assert (Hlt' : Forall (lt i) (List.map fst (ocr_blocks cmd images (S i)))).
    { eapply Forall_impl; [exact Hlt|]. intros; simpl in *; lia. }
    destruct (image_to_string cmd img) as [t|e]; simpl.
    + split; constructor; try lia; try assumption.
      eapply Forall_impl; [exact Hlt|]. intros; simpl in *; lia.
    + destruct (is_Exception e); [split; assumption|split; constructor].
Qed.

Lemma ocr_blocks_length (cmd : str) (images : list image) (i : nat) :
  length (ocr_blocks cmd images i) <= length images.
Proof.
  revert i. induction images as [|img images IH]; intros i; simpl; [lia|].
  destruct (image_to_string cmd img) as [t|e]; simpl;
    [|destruct (is_Exception e); simpl]; try (specialize (IH (S i))); lia.
Qed.

Lemma extract_text_pdfplumber_blocks (fs : files) (pdf_file : string)
  (notes : list note) (pages : list page) :
  pdfplumber_open (fs !! pdf_file) = Ret pages ->
  match snd (extract_text_pdfplumber fs pdf_file notes) with
  | Ret out => out = flat_map render_block (digital_blocks pages 1)
  | Raise _ => True
  end.
Proof.
  intros Ho. unfold extract_text_pdfplumber. rewrite Ho.
  pose proof (pdfplumber_loop_blocks pages 1 []) as H.
  destruct (pdfplumber_loop pages 1 []) as [text [e|]]; simpl in H.
  - unfold pdfplumber_handler. destruct (is_Exception e); [exact H|exact I].
  - exact H.
Qed.

Lemma extract_text_ocr_blocks (cfg : config) (fs : files) (pdf_file : string)
  (notes : list note) (images : list image) :
  convert_from_path (fs !! pdf_file) (ocr_dpi cfg) = Ret images ->
  match snd (extract_text_ocr cfg fs pdf_file notes) with
  | Ret out =>
      out = flat_map render_block (ocr_blocks (tesseract_cmd cfg) images 0)
  | Raise _ => True
  end.
Proof.
  intros Hc. unfold extract_text_ocr. rewrite Hc.
  apply (ocr_loop_blocks cfg (tesseract_cmd cfg) images 0 [] notes).
Qed.

(** C4 (as amended). The text the digital extractor returns is the
    sequence of the blocks of the pages that have a text (pages without
    one, and pages after a fault, have no block): their headings carry the
    pages' numbers in the document, in strictly increasing order; there are
    at most as many blocks as pages, and exactly one per page when every
    page has a text.  The OCR extractor's text is likewise the sequence of
    the blocks of the recognized pages, numbered by page and strictly
    increasing. *)
Theorem extracted_blocks_in_page_order (cfg : config) (fs : files)
  (pdf_file : string) (notes : list note) (pages : list page)
  (images : list image) :
  let blocks := digital_blocks pages 1 in
  let scanned := ocr_blocks (tesseract_cmd cfg) images 0 in
  (pdfplumber_open (fs !! pdf_file) = Ret pages ->
   match snd (extract_text_pdfplumber fs pdf_file notes) with
   | Ret out => out = flat_map render_block blocks
   | Raise _ => True
   end)
  /\ increasing (List.map fst blocks)
  /\ length blocks <= length pages
  /\ (Forall (fun p => exists c t, extract_text p = Ret (Some (c :: t))) pages ->
      List.map fst blocks = seq 1 (length pages))
  /\ (forall k t, In (k, t) blocks ->
        1 <= k /\ exists p, nth_error pages (k - 1) = Some p
                            /\ extract_text p = Ret (Some t) /\ t <> [])
  /\ (convert_from_path (fs !! pdf_file) (ocr_dpi cfg) = Ret images ->
      match snd (extract_text_ocr cfg fs pdf_file notes) with
      | Ret out => out = flat_map render_block scanned
      | Raise _ => True
      end)
  /\ increasing (List.map fst scanned)
  /\ length scanned <= length images.
Proof.
  cbv zeta. split; [apply extract_text_pdfplumber_blocks|].
  split; [apply digital_blocks_numbers|].
  split; [apply digital_blocks_length|].
  split; [apply digital_blocks_all|].
  split; [intros k t; apply digital_blocks_origin|].
  split; [apply extract_text_ocr_blocks|].
  split; [apply ocr_blocks_numbers|apply ocr_blocks_length].
Qed.

End ExtractorBlocks.

(** C4, as stated, fails on a document with a page without text: two
    pages, one block. *)
Lemma digital_extractor_skips_empty_page :
  let pages := [Ret (Some (py "Hello")); Ret None] in
  let W := scripted (Ret pages) (Ret []) None in
  extract_text_pdfplumber (W := W) ∅ "in.pdf" []
  = ([], Ret ([LF; LF] ++ py "# Page 1" ++ [LF; LF] ++ py "Hello"))
  /\ length (digital_blocks (W := W) pages 1) = 1
  /\ length pages = 2.
Proof. repeat split. Qed.

(* ================================================================== *)
(** * Splitting concatenated words *)
(* ================================================================== *)

Lemma str_eqb_eq (a b : str) : str_eqb a b = true <-> a = b.
Proof.
  revert b. induction a as [|x a IH]; intros [|y b]; simpl;
    try (split; [discriminate|congruence]); [tauto|].
  rewrite andb_true_iff, N.eqb_eq, IH. split.
  - intros [-> ->]. reflexivity.
  - intros H. injection H as -> ->. tauto.
Qed.

Lemma split_each_spec (segment : str -> list str) (words acc : list str) :
  exists outs, split_each segment words acc = acc ++ outs
               /\ Forall2 (kept_or_split segment) words outs.
Proof.
  revert acc. induction words as [|w words IH]; intros acc; simpl.
  - exists []. split; [symmetry; apply app_nil_r|constructor].
  - destruct (Nat.ltb_spec 15 (length w)) as [Hlong|Hshort].
    + destruct (Nat.ltb_spec 1 (length (segment w))) as [Hmany|Hone]; simpl.
      * destruct (str_eqb (join [SP] (segment w)) w) eqn:E; simpl.
        -- apply str_eqb_eq in E.
           destruct (IH (acc ++ [w])) as (outs & -> & HF).
           exists (w :: outs). rewrite <- app_assoc. split; [reflexivity|].
           constructor; [|exact HF]. unfold kept_or_split, pieces_differ.
           repeat split; auto; try (intros _ [_ Hne]; congruence).
        -- assert (Hne : join [SP] (segment w) <> w).
           { intros Heq. apply str_eqb_eq in Heq. congruence. }
           destruct (IH (acc ++ [join [SP] (segment w)])) as (outs & -> & HF).
           exists (join [SP] (segment w) :: outs). rewrite <- app_assoc.
           split; [reflexivity|]. constructor; [|exact HF].
           unfold kept_or_split, pieces_differ.
           split; [lia|]. split; [reflexivity|].
           intros _ H. exfalso. apply H. split; [lia|exact Hne].
      * destruct (IH (acc ++ [w])) as (outs & -> & HF).
        exists (w :: outs). rewrite <- app_assoc. split; [reflexivity|].
        constructor; [|exact HF]. unfold kept_or_split, pieces_differ.
        repeat split; auto; try (intros _ [Hlen _]; lia).
    + destruct (IH (acc ++ [w])) as (outs & -> & HF).
      exists (w :: outs). rewrite <- app_assoc. split; [reflexivity|].
      constructor; [|exact HF]. unfold kept_or_split.
      repeat split; auto; lia.
Qed.

(** C6. The word-splitting pass puts, for each whitespace-delimited token
    of the text in turn, one token in the output: the token itself when it
    has at most 15 characters; for a longer one the pieces of its
    segmentation joined by spaces when there are two pieces or more and
    they read differently from the token, and the token itself otherwise.
    Without wordninja the text is returned as it is. *)
Theorem split_concatenated_words_tokens (wn : option (str -> list str))
  (text : str) :
  match wn with
  | Some segment =>
      exists outs,
        split_concatenated_words wn text = join [SP] outs
        /\ Forall2 (kept_or_split segment) (split_ws text) outs
  | None => split_concatenated_words wn text = text
  end.
Proof.
  destruct wn as [segment|]; [|reflexivity].
  destruct (split_each_spec segment (split_ws text) []) as (outs & E & HF).
  exists outs. split; [|exact HF].
  unfold split_concatenated_words. rewrite E. reflexivity.
Qed.

(** The pass at work: a short token stays, a long one is split when the
    segmentation differs. *)
Example split_concatenated_words_example :
  let segment (w : str) :=
    if str_eqb w (py "concatenatedwordshere")
    then [py "concatenated"; py "words"; py "here"] else [w] in
  split_concatenated_words (Some segment)
    (py "  see concatenatedwordshere and pneumonoultramicroscopic ")
  = py "see concatenated words here and pneumonoultramicroscopic".
Proof. reflexivity. Qed.

(* ================================================================== *)
(** * The matcher finds the matches *)
(* ================================================================== *)

Lemma mstate_eq (m : mstate) (i : nat) (s : str) (cs : list str) :
  pos m = i -> rest m = s -> caps m = cs -> m = MState i s cs.
Proof. destruct m; simpl; intros; subst; reflexivity. Qed.

Lemma reads_nil (st : mstate) : reads st [] st.
Proof. unfold reads. simpl. repeat split; lia. Qed.

Lemma reads_nil_inv (st m : mstate) : reads st [] m -> m = st.
Proof.
  destruct st, m. unfold reads. simpl. intros (-> & -> & ->).
  f_equal. lia.
Qed.

Lemma reads_app (st mid m : mstate) (w1 w2 : str) :
  reads st w1 mid -> reads mid w2 m -> reads st (w1 ++ w2) m.
Proof.
  unfold reads. intros (H1 & H2 & H3) (H4 & H5 & H6).
  rewrite H1, H4, H5, H2, H6, H3, <- app_assoc, length_app.
  repeat split; lia.
Qed.

Lemma reads_split (st m : mstate) (w1 w2 : str) :
  reads st (w1 ++ w2) m ->
  exists mid, reads st w1 mid /\ reads mid w2 m.
Proof.
  unfold reads. intros (H1 & H2 & H3).
  exists (MState (pos st + length w1) (w2 ++ rest m) (caps st)). simpl.
  rewrite H1, H2, H3, <- app_assoc, length_app. repeat split; lia.
Qed.

Lemma in_star (p : char -> bool) (i : nat) (s : str) (cs : list str)
  (m : mstate) :
  In m (star p i s cs) <->
  exists w, forallb p w = true /\ reads (MState i s cs) w m.
Proof.
  revert i. induction s as [|c s IH]; intros i.
  - simpl. split.
    + intros [<-|[]]. exists []. split; [reflexivity|apply reads_nil].
    + intros ([|c w] & _ & Hr).
      * left. symmetry. apply (reads_nil_inv _ _ Hr).
      * destruct Hr as (Hr & _). discriminate.
  - simpl. destruct (p c) eqn:Hc.
    + rewrite in_app_iff, IH. split.
      * intros [(w & Hw & Hr & Hp & Hcs)|[<-|[]]].
        -- exists (c :: w). simpl in *. rewrite Hc, Hw.
           split; [reflexivity|]. unfold reads. simpl.
           rewrite Hr, Hp, Hcs. repeat split; lia.
        -- exists []. split; [reflexivity|apply reads_nil].
      * intros ([|c' w] & Hw & Hr).
        -- right. left. symmetry. apply (reads_nil_inv _ _ Hr).
        -- left. simpl in Hw. apply andb_true_iff in Hw as [_ Hw].
           destruct Hr as (Hr & Hp & Hcs). simpl in *.
           injection Hr as <- Hr. exists w. split; [exact Hw|].
           unfold reads. simpl. repeat split; [exact Hr|lia|exact Hcs].
    + split.
      * intros [<-|[]]. exists []. split; [reflexivity|apply reads_nil].
      * intros ([|c' w] & Hw & Hr).
        -- left. symmetry. apply (reads_nil_inv _ _ Hr).
        -- destruct Hr as (Hr & _). simpl in *. injection Hr as <- _.
           rewrite Hc in Hw. discriminate.
Qed.

(** The matcher is sound and complete: the points it lists are the
    matches. *)
Lemma ms_matches (r : regex) (st m : mstate) :
  In m (ms r st) <-> matches r st m.
Proof.
  revert st m. induction r as [|p|p| | |r IH|r1 IH1 r2 IH2]; intros st m.
  - simpl. split; [intros [<-|[]]; reflexivity|intros ->; left; reflexivity].
  - destruct st as [i [|c s] cs]; simpl.
    + split; [intros []|]. intros (c & _ & Hr & _). discriminate.
    + destruct (p c) eqn:Hc; simpl.
      * split.
        -- intros [<-|[]]. exists c. split; [exact Hc|].
           unfold reads. simpl. repeat split; lia.
        -- intros (c' & _ & Hr & Hp & Hcs). simpl in *.
           injection Hr as <- Hr. left. symmetry.
           apply mstate_eq; [lia|congruence|congruence].
      * split; [intros []|]. intros (c' & Hc' & Hr & _). simpl in Hr.
        injection Hr as <- _. congruence.
  - destruct st as [i s cs]. apply in_star.
  - destruct st as [[|i] s cs]; simpl.
    + split; [intros [<-|[]]; split; reflexivity|intros [_ ->]; left; reflexivity].
    + split; [intros []|intros [H _]; discriminate].
  - destruct st as [i [|c [|d s]] cs]; simpl.
    + split; [intros [<-|[]]; split; [left|]; reflexivity
             |intros [_ ->]; left; reflexivity].
    + destruct (N.eqb_spec c LF) as [->|Hne]; simpl.
      * split; [intros [<-|[]]; split; [right|]; reflexivity
               |intros [_ ->]; left; reflexivity].
      * split; [intros []|]. intros [[H|H] _]; [discriminate|congruence].
    + split; [intros []|]. intros [[H|H] _]; discriminate.
  - simpl. rewrite in_map_iff. split.
    + intros (m' & <- & Hin). exists m'. split; [apply IH, Hin|reflexivity].
    + intros (m' & Hm & ->). exists m'. split; [reflexivity|apply IH, Hm].
  - simpl. rewrite in_flat_map. split.
    + intros (mid & H1 & H2). exists mid.
      split; [apply IH1, H1|apply IH2, H2].
    + intros (mid & H1 & H2). exists mid.
      split; [apply IH1, H1|apply IH2, H2].
Qed.

Lemma matches_lit (c : char) (st m : mstate) :
  matches (Lit c) st m <-> reads st [c] m.
Proof.
  simpl. split.
  - intros (c' & Hc & Hr). apply N.eqb_eq in Hc. subst. exact Hr.
  - intros Hr. exists c. split; [apply N.eqb_refl|exact Hr].
Qed.

Lemma matches_plus (p : char -> bool) (st m : mstate) :
  matches (Plus p) st m <->
  exists w, w <> [] /\ forallb p w = true /\ reads st w m.
Proof.
  simpl. split.
  - intros (mid & (c & Hc & H1) & (w & Hw & H2)).
    exists ([c] ++ w). split; [discriminate|]. simpl. rewrite Hc, Hw.
    split; [reflexivity|]. apply (reads_app _ _ _ [c] w H1 H2).
  - intros ([|c w] & Hne & Hw & Hr); [congruence|].
    simpl in Hw. apply andb_true_iff in Hw as [Hc Hw].
    destruct (reads_split st m [c] w Hr) as (mid & H1 & H2).
    exists mid. split; [exists c|exists w]; auto.
Qed.

Lemma matches_rep (n : nat) (p : char -> bool) (st m : mstate) :
  matches (Rep n p) st m <->
  exists w, length w = n /\ forallb p w = true /\ reads st w m.
Proof.
  revert st. induction n as [|n IH]; intros st; simpl.
  - split.
    + intros ->. exists []. repeat split. apply reads_nil.
    + intros ([|c w] & Hl & _ & Hr); [|discriminate].
      apply reads_nil_inv, Hr.
  - split.
    + intros (mid & (c & Hc & H1) & H2). apply IH in H2 as (w & Hl & Hw & H2).
      exists ([c] ++ w). simpl. rewrite Hl, Hc, Hw.
      split; [reflexivity|split; [reflexivity|]].
      apply (reads_app _ _ _ [c] w H1 H2).
    + intros ([|c w] & Hl & Hw & Hr); [discriminate|].
      simpl in Hw. apply andb_true_iff in Hw as [Hc Hw].
      destruct (reads_split st m [c] w Hr) as (mid & H1 & H2).
      exists mid. split; [exists c; auto|]. apply IH. exists w.
      simpl in Hl. split; [lia|split; assumption].
Qed.

(* ================================================================== *)
(** * Removing page headers *)
(* ================================================================== *)

Lemma re_match_true (r : regex) (s : str) :
  re_match r s = true <-> exists m, matches r (MState 0 s []) m.
Proof.
  unfold re_match. destruct (ms r (MState 0 s [])) as [|m l] eqn:E.
  - split; [discriminate|]. intros (m & Hm). apply ms_matches in Hm.
    rewrite E in Hm. destruct Hm.
  - split; [|reflexivity]. intros _. exists m. apply ms_matches.
    rewrite E. left. reflexivity.
Qed.

Lemma forallb_app_true {A} (f : A -> bool) (l1 l2 : list A) :
  forallb f l1 = true -> forallb f l2 = true -> forallb f (l1 ++ l2) = true.
Proof. intros H1 H2. rewrite forallb_app, H1, H2. reflexivity. Qed.

Section Headers.
Context {U : UnicodeData}.

(** The matches of the header pattern, read off the pattern. *)
Lemma header_matches (st m : mstate) :
  matches HEADER st m <->
  pos st = 0
  /\ (rest m = [] \/ rest m = [LF])
  /\ exists w1 d1 d2 w2 y w3,
       reads st (w1 ++ d1 ++ [SLASH] ++ d2 ++ w2 ++ y ++ w3) m
       /\ all is_space w1
       /\ d1 <> [] /\ all is_digit d1
       /\ d2 <> [] /\ all is_digit d2
       /\ w2 <> [] /\ all is_space w2
       /\ length y = 4 /\ all is_digit y
       /\ all is_space w3.
Proof.
  unfold HEADER, all. split.
  - intros H.
    destruct H as (m0 & [Hp ->] & H).
    destruct H as (m1 & (w1 & Hw1 & R1) & H).
    destruct H as (m2 & H2 & H). apply matches_plus in H2 as (d1 & N1 & D1 & R2).
    destruct H as (m3 & R3 & H). apply matches_lit in R3.
    destruct H as (m4 & H4 & H). apply matches_plus in H4 as (d2 & N2 & D2 & R4).
    destruct H as (m5 & H5 & H). apply matches_plus in H5 as (w2 & N3 & W2 & R5).
    destruct H as (m6 & H6 & H). apply matches_rep in H6 as (y & Ly & Y & R6).
    destruct H as (m7 & (w3 & Hw3 & R7) & [He ->]).
    split; [exact Hp|]. split; [exact He|].
    exists w1, d1, d2, w2, y, w3.
    split; [|tauto].
    eapply reads_app; [exact R1|]. eapply reads_app; [exact R2|].
    eapply reads_app; [exact R3|]. eapply reads_app; [exact R4|].
    eapply reads_app; [exact R5|]. eapply reads_app; [exact R6|exact R7].
  - intros (Hp & He & w1 & d1 & d2 & w2 & y & w3 & R & Hw1 & N1 & D1 & N2
            & D2 & N3 & W2 & Ly & Y & Hw3).
    apply reads_split in R as (m1 & R1 & R).
    apply reads_split in R as (m2 & R2 & R).
    apply reads_split in R as (m3 & R3 & R).
    apply reads_split in R as (m4 & R4 & R).
    apply reads_split in R as (m5 & R5 & R).
    apply reads_split in R as (m6 & R6 & R7).
    exists st. split; [split; [exact Hp|reflexivity]|].
    exists m1. split; [exists w1; auto|].
    exists m2. split; [apply matches_plus; exists d1; auto|].
    exists m3. split; [apply matches_lit; exact R3|].
    exists m4. split; [apply matches_plus; exists d2; auto|].
    exists m5. split; [apply matches_plus; exists w2; auto|].
    exists m6. split; [apply matches_rep; exists y; auto|].
    exists m. split; [exists w3; auto|]. split; [exact He|reflexivity].
Qed.

(** The header pattern accepts exactly the lines of the header shape. *)
Lemma header_match_shape (line : str) :
  re_match HEADER line = true <-> header_shape line.
Proof.
  rewrite re_match_true. unfold header_shape. split.
  - intros (m & Hm). apply header_matches in Hm
      as (_ & He & w1 & d1 & d2 & w2 & y & w3 & (R & _) & H).
    simpl in R. destruct He as [He|He]; rewrite He in R.
    + rewrite app_nil_r in R. exists w1, d1, d2, w2, y, w3. tauto.
    + exists w1, d1, d2, w2, y, (w3 ++ [LF]).
      split; [rewrite R; repeat (simpl; rewrite <- app_assoc); reflexivity|].
      destruct H as (? & ? & ? & ? & ? & ? & ? & ? & ? & Hw3).
      repeat (split; [assumption|]).
      apply forallb_app_true; [exact Hw3|reflexivity].
  - intros (w1 & d1 & d2 & w2 & y & w3 & -> & H).
    exists (MState (length (w1 ++ d1 ++ [SLASH] ++ d2 ++ w2 ++ y ++ w3)) [] []).
    apply header_matches. simpl. split; [reflexivity|].
    split; [left; reflexivity|].
    exists w1, d1, d2, w2, y, w3. split; [|exact H].
    unfold reads. simpl. rewrite app_nil_r. repeat split.
Qed.

Lemma filter_lines_kept (lines acc : list str) :
  exists kept, filter_lines lines acc = acc ++ kept
               /\ kept_lines lines kept.
Proof.
  revert acc. induction lines as [|line lines IH]; intros acc; simpl.
  - exists []. split; [symmetry; apply app_nil_r|constructor].
  - destruct (re_match HEADER line) eqn:E.
    + destruct (IH acc) as (kept & -> & Hk). exists kept.
      split; [reflexivity|]. apply kept_drop; [|exact Hk].
      apply header_match_shape, E.
    + destruct (IH (acc ++ [line])) as (kept & -> & Hk).
      exists (line :: kept). rewrite <- app_assoc.
      split; [reflexivity|]. apply kept_keep; [|exact Hk].
      intros Hs. apply header_match_shape in Hs. congruence.
Qed.

(** C3. [remove_page_headers] takes out of the lines of the text those
    that consist, whitespace around them apart, of digits, a slash,
    digits, whitespace and four digits, and joins the other lines, unchanged
    and in their order, with newlines.  The line ["49/3 2024"] goes, the
    line ["Section 4/3 2024 notes"] stays. *)
Theorem remove_page_headers_drops_header_lines :
  (forall line, re_match HEADER line = true <-> header_shape line)
  /\ (forall text, exists kept,
        kept_lines (splitlines text) kept
        /\ remove_page_headers text = join [LF] kept)
  /\ remove_page_headers (py "49/3 2024") = []
  /\ remove_page_headers (py "Section 4/3 2024 notes")
     = py "Section 4/3 2024 notes".
Proof.
  split; [exact header_match_shape|]. split; [|split; reflexivity].
  intros text. unfold remove_page_headers.
  destruct (filter_lines_kept (splitlines text) []) as (kept & -> & Hk).
  exists kept. split; [exact Hk|reflexivity].
Qed.

End Headers.

(* ================================================================== *)
(** * Running the matcher: progress, fuel and greedy runs *)
(* ================================================================== *)

(** A match reads a stretch of the text. *)
Lemma matches_reads (r : regex) (st m : mstate) :
  matches r st m ->
  exists w, rest st = w ++ rest m /\ pos m = pos st + length w.
Proof.
  revert st m. induction r as [|p|p| | |r IH|r1 IH1 r2 IH2]; intros st m; simpl.
  - intros ->. exists []. split; [reflexivity|simpl; lia].
  - intros (c & _ & Hr & Hp & _). exists [c]. auto.
  - intros (w & _ & Hr & Hp & _). exists w. auto.
  - intros (_ & ->). exists []. split; [reflexivity|simpl; lia].
  - intros (_ & ->). exists []. split; [reflexivity|simpl; lia].
  - intros (m' & Hm & ->). simpl. apply IH, Hm.
  - intros (mid & H1 & H2).
    apply IH1 in H1 as (w1 & R1 & P1). apply IH2 in H2 as (w2 & R2 & P2).
    exists (w1 ++ w2). rewrite R1, R2, P2, P1, <- app_assoc, length_app.
    split; [reflexivity|lia].
Qed.

(** A pattern that is not nullable reads at least one character. *)
Lemma match_consumes (r : regex) (st m : mstate) :
  nullable r = false -> matches r st m -> pos st < pos m.
Proof.
  revert st m. induction r as [|p|p| | |r IH|r1 IH1 r2 IH2]; intros st m;
    simpl; try discriminate.
  - intros _ (c & _ & _ & Hp & _). simpl in Hp. lia.
  - intros Hn (m' & Hm & ->). simpl. apply IH; assumption.
  - intros Hn (mid & H1 & H2). apply andb_false_iff in Hn as [Hn|Hn].
    + apply (IH1 _ _ Hn) in H1.
      apply matches_reads in H2 as (w & _ & Hp). lia.
    + apply (IH2 _ _ Hn) in H2.
      apply matches_reads in H1 as (w & _ & Hp). lia.
Qed.

(** What [match_at] reports has read at least one character. *)
Lemma match_at_progress (r : regex) (i : nat) (s : str) (m : mstate) :
  match_at r i s = Some m -> length (rest m) < length s.
Proof.
  unfold match_at. destruct (ms r (MState i s [])) as [|m' l] eqn:E;
    [discriminate|].
  destruct (Nat.ltb_spec i (pos m')) as [Hlt|]; [|discriminate].
  intros H. injection H as ->.
  assert (Hin : In m (ms r (MState i s []))) by (rewrite E; left; reflexivity).
  apply ms_matches, matches_reads in Hin as (w & R & P). simpl in *.
  rewrite R, length_app. lia.
Qed.


Lemma split_loop_fuel (r : regex) (f1 f2 i : nat) (s : str) :
  length s < f1 -> length s < f2 ->
  split_loop r f1 i s = split_loop r f2 i s.
Proof.
  revert f2 i s. induction f1 as [|f1 IH]; intros [|f2] i s H1 H2; try lia.
  simpl. destruct (match_at r i s) as [m|] eqn:E.
  - apply match_at_progress in E. f_equal. apply IH; lia.
  - destruct s as [|c s]; [reflexivity|]. simpl in *. f_equal. apply IH; lia.
Qed.

Lemma sub_loop_S (r : regex) (tpl : list repl_item) (fuel i : nat) (s : str) :
  sub_loop r tpl (S fuel) i s =
  match match_at r i s with
  | Some m => expand tpl (caps m) ++ sub_loop r tpl fuel (pos m) (rest m)
  | None =>
      match s with
      | c :: s' => c :: sub_loop r tpl fuel (S i) s'
      | [] => []
      end
  end.
Proof. reflexivity. Qed.

Lemma split_loop_S (r : regex) (fuel i : nat) (s : str) :
  split_loop r (S fuel) i s =
  match match_at r i s with
  | Some m => [] :: split_loop r fuel (pos m) (rest m)
  | None =>
      match s with
      | c :: s' => cons_hd c (split_loop r fuel (S i) s')
      | [] => [[]]
      end
  end.
Proof. reflexivity. Qed.


Lemma split_loop_step (r : regex) (fuel i : nat) (s : str) :
  length s < fuel ->
  split_loop r fuel i s =
  match match_at r i s with
  | Some m => [] :: split_loop r (S (length (rest m))) (pos m) (rest m)
  | None =>
      match s with
      | c :: s' => cons_hd c (split_loop r (S (length s')) (S i) s')
      | [] => [[]]
      end
  end.
Proof.
  intros Hf. destruct fuel as [|fuel]; [lia|]. rewrite split_loop_S.
  destruct (match_at r i s) as [m|] eqn:E.
  - apply match_at_progress in E. f_equal. apply split_loop_fuel; lia.
  - destruct s as [|c s]; [reflexivity|]. simpl in Hf. f_equal.
    apply split_loop_fuel; simpl; lia.
Qed.

(** A run and what follows it make up the text. *)
Lemma run_after (p : char -> bool) (s : str) : run p s ++ after p s = s.
Proof.
  induction s as [|c s IH]; simpl; [reflexivity|].
  destruct (p c); simpl; [rewrite IH|]; reflexivity.
Qed.

Lemma run_all (p : char -> bool) (s : str) : forallb p (run p s) = true.
Proof.
  induction s as [|c s IH]; simpl; [reflexivity|].
  destruct (p c) eqn:E; simpl; [rewrite E; exact IH|reflexivity].
Qed.

Lemma firstn_run (p : char -> bool) (s : str) :
  firstn (length (run p s)) s = run p s.
Proof.
  induction s as [|c s IH]; simpl; [reflexivity|].
  destruct (p c); simpl; [rewrite IH|]; reflexivity.
Qed.


(** Greedy repetition tries the whole run first. *)
Lemma star_head (p : char -> bool) (i : nat) (s : str) (cs : list str) :
  exists l,
    star p i s cs = MState (i + length (run p s)) (after p s) cs :: l.
Proof.
  revert i. induction s as [|c s IH]; intros i; simpl.
  - exists []. rewrite Nat.add_0_r. reflexivity.
  - destruct (p c); simpl.
    + destruct (IH (S i)) as (l & ->). eexists.
      rewrite <- app_comm_cons. f_equal. f_equal. lia.
    + exists []. rewrite Nat.add_0_r. reflexivity.
Qed.

(** When what follows the repetition cannot start with a character of the
    class, only the whole run is continued. *)
Lemma star_then_other (p : char -> bool) (k : mstate -> list mstate)
  (i : nat) (s : str) (cs : list str) :
  (forall j c s', p c = true -> k (MState j (c :: s') cs) = []) ->
  flat_map k (star p i s cs)
  = k (MState (i + length (run p s)) (after p s) cs).
Proof.
  intros Hk. revert i. induction s as [|c s IH]; intros i; simpl.
  - rewrite Nat.add_0_r. apply app_nil_r.
  - destruct (p c) eqn:E; simpl.
    + rewrite flat_map_app, IH. simpl. rewrite (Hk i c s E).
      rewrite !app_nil_r. f_equal. f_equal. lia.
    + rewrite Nat.add_0_r. apply app_nil_r.
Qed.

Lemma ms_cat (r1 r2 : regex) (st : mstate) :
  ms (Cat r1 r2) st = flat_map (ms r2) (ms r1 st).
Proof. reflexivity. Qed.

Lemma ms_lit (c : char) (i : nat) (s : str) (cs : list str) :
  ms (Lit c) (MState i s cs) =
  match s with
  | d :: s' => if (c =? d)%N then [MState (S i) s' cs] else []
  | [] => []
  end.
Proof. reflexivity. Qed.

Lemma ms_cls (p : char -> bool) (i : nat) (s : str) (cs : list str) :
  ms (Cls p) (MState i s cs) =
  match s with
  | d :: s' => if p d then [MState (S i) s' cs] else []
  | [] => []
  end.
Proof. reflexivity. Qed.

Lemma flat_map_after_map {A B C} (f : B -> list C) (g : A -> B) (l : list A) :
  flat_map f (List.map g l) = flat_map (fun x => f (g x)) l.
Proof.
  induction l as [|a l IH]; simpl; [reflexivity|]. rewrite IH. reflexivity.
Qed.

Lemma ms_grp_plus (p : char -> bool) (i : nat) (s : str) (cs : list str) :
  ms (Grp (Plus p)) (MState i s cs) =
  match s with
  | c :: s' =>
      if p c then
        List.map
          (fun m => MState (pos m) (rest m) (caps m ++ [firstn (pos m - i) s]))
          (star p (S i) s' cs)
      else []
  | [] => []
  end.
Proof.
  simpl. destruct s as [|c s']; [reflexivity|].
  destruct (p c); [|reflexivity]. simpl. rewrite app_nil_r. reflexivity.
Qed.

(** A group around [p+] is tried first on the whole run. *)
Lemma grp_plus_head (p : char -> bool) (i : nat) (c : char) (s : str)
  (cs : list str) :
  p c = true ->
  exists l,
    ms (Grp (Plus p)) (MState i (c :: s) cs)
    = MState (i + S (length (run p s))) (after p s) (cs ++ [c :: run p s]) :: l.
Proof.
  intros Hc. rewrite ms_grp_plus, Hc.
  destruct (star_head p (S i) s cs) as (l & ->). simpl.
  eexists. f_equal.
  replace (S (i + length (run p s)) - i) with (S (length (run p s))) by lia.
  simpl. rewrite firstn_run. f_equal. lia.
Qed.

(** ... and only there, when what follows cannot start in the class. *)
Lemma grp_plus_then_other (p : char -> bool) (k : mstate -> list mstate)
  (i : nat) (c : char) (s : str) (cs : list str) :
  p c = true ->
  (forall j d s' cs', p d = true -> k (MState j (d :: s') cs') = []) ->
  flat_map k (ms (Grp (Plus p)) (MState i (c :: s) cs))
  = k (MState (i + S (length (run p s))) (after p s) (cs ++ [c :: run p s])).
Proof.
  intros Hc Hk. rewrite ms_grp_plus, Hc, flat_map_after_map.
  rewrite (star_then_other p
             (fun x => k (MState (pos x) (rest x)
                            (caps x ++ [firstn (pos x - i) (c :: s)])))).
  - simpl.
    replace (S (i + length (run p s)) - i) with (S (length (run p s))) by lia.
    simpl. rewrite firstn_run. f_equal. f_equal. lia.
  - intros j d s' Hd. simpl. apply Hk, Hd.
Qed.

Section Hyphenation.
Context {U : UnicodeData}.

Lemma word_not_hyphen (c : char) : is_word c = true -> (HYPHEN =? c)%N = false.
Proof.
  intros Hc. destruct (N.eqb_spec HYPHEN c) as [<-|]; [|reflexivity].
  discriminate.
Qed.

(** The matcher on the hyphenation pattern, computed. *)
Lemma match_at_hyphen (i : nat) (s : str) :
  match_at HYPHEN_BREAK i s = hyphen_at i s.
Proof.
  unfold match_at, hyphen_at, HYPHEN_BREAK.
  destruct s as [|c s]; [reflexivity|].
  rewrite ms_cat.
  destruct (is_word c) eqn:Hc.
  - rewrite grp_plus_then_other; [|exact Hc|].
    + cbn [run after]. rewrite Hc.
      destruct (after is_word s) as [|h [|l [|d s']]].
      * reflexivity.
      * rewrite ms_cat, ms_lit. destruct (HYPHEN =? h)%N; reflexivity.
      * rewrite ms_cat, ms_lit. destruct (HYPHEN =? h)%N; [|reflexivity].
        cbn [flat_map]. rewrite ms_cat, ms_lit.
        destruct (LF =? l)%N; reflexivity.
      * rewrite ms_cat, ms_lit, (N.eqb_sym h HYPHEN), (N.eqb_sym l LF).
        destruct (HYPHEN =? h)%N; [|reflexivity].
        cbn [flat_map]. rewrite ms_cat, ms_lit.
        destruct (LF =? l)%N; [|reflexivity].
        cbn [flat_map andb]. rewrite !app_nil_r.
        destruct (is_word d) eqn:Hd.
        -- cbn [app].
           destruct (grp_plus_head is_word
                       (S (S (i + S (length (run is_word s))))) d s'
                       [c :: run is_word s] Hd) as (l0 & ->).
           cbn [pos].
           replace (i <? S (S (i + S (length (run is_word s))))
                         + S (length (run is_word s')))
             with true by (symmetry; apply Nat.ltb_lt; lia).
           cbn [length app]. f_equal. f_equal. lia.
        -- rewrite ms_grp_plus, Hd. reflexivity.
    + intros j d s' cs' Hd. rewrite ms_cat, ms_lit, (word_not_hyphen d Hd).
      reflexivity.
  - rewrite ms_grp_plus, Hc. cbn [run]. rewrite Hc. reflexivity.
Qed.

Lemma hyphen_at_inv (i : nat) (s : str) (m : mstate) :
  hyphen_at i s = Some m ->
  exists u v,
    u <> [] /\ all is_word u /\ v <> [] /\ all is_word v
    /\ s = u ++ [HYPHEN; LF] ++ v ++ rest m
    /\ caps m = [u; v].
Proof.
  unfold hyphen_at. intros H.
  destruct (run is_word s) as [|c u] eqn:Er; [discriminate|].
  destruct (after is_word s) as [|h [|l [|d s']]] eqn:Ea; try discriminate.
  destruct (N.eqb_spec h HYPHEN) as [->|]; [|discriminate].
  destruct (N.eqb_spec l LF) as [->|]; [|discriminate].
  destruct (is_word d) eqn:Hd; [|discriminate].
  simpl in H. injection H as <-. simpl.
  exists (c :: u), (run is_word (d :: s')).
  split; [discriminate|]. split; [rewrite <- Er; apply run_all|].
  split; [simpl; rewrite Hd; discriminate|]. split; [apply run_all|].
  split; [|reflexivity].
  rewrite <- (run_after is_word s), Er, Ea.
  rewrite <- (run_after is_word (d :: s')) at 1. reflexivity.
Qed.

Lemma sub_hyphen_joined (fuel i : nat) (s : str) :
  length s < fuel ->
  hyphen_joined s (sub_loop HYPHEN_BREAK [Ref 1; Ref 2] fuel i s).
Proof.
  revert i s. induction fuel as [|fuel IH]; intros i s Hf; [lia|].
  rewrite sub_loop_S.
  destruct (match_at HYPHEN_BREAK i s) as [m|] eqn:E.
  - pose proof (match_at_progress _ _ _ _ E) as Hp.
    rewrite match_at_hyphen in E.
    apply hyphen_at_inv in E as (u & v & Nu & Hu & Nv & Hv & Hs & Hc).
    rewrite Hc. cbn [expand flat_map nth Nat.sub]. rewrite app_nil_r.
    rewrite Hs at 1. rewrite <- app_assoc.
    apply hj_join; try assumption. apply IH. lia.
  - destruct s as [|c s]; [constructor|]. apply hj_copy, IH. simpl in Hf. lia.
Qed.


Lemma no_hyphen_break_tail (c : char) (s : str) :
  no_hyphen_break (c :: s) -> no_hyphen_break s.
Proof.
  intros H pre a b post E. apply (H (c :: pre) a b post).
  rewrite E. reflexivity.
Qed.

Lemma hyphen_joined_id (s t : str) :
  hyphen_joined s t -> no_hyphen_break s -> t = s.
Proof.
  induction 1 as [|c s t _ IH|u v s t Nu Hu Nv Hv _ _]; intros Hn.
  - reflexivity.
  - f_equal. apply IH. eapply no_hyphen_break_tail, Hn.
  - exfalso.
    destruct (exists_last Nu) as (u0 & a & ->).
    destruct v as [|b v]; [congruence|].
    destruct (Hn u0 a b (v ++ s)) as [Ha|Hb].
    + rewrite <- !app_assoc. reflexivity.
    + unfold all in Hu. rewrite forallb_app in Hu. simpl in Hu.
      rewrite Ha in Hu. rewrite andb_false_r in Hu. discriminate.
    + unfold all in Hv. simpl in Hv. rewrite Hb in Hv. discriminate.
Qed.



















End Hyphenation.


(* ================================================================== *)
(** * The paragraph reflow *)
(* ================================================================== *)

Lemma ms_grp_cls (p : char -> bool) (i : nat) (s : str) (cs : list str) :
  ms (Grp (Cls p)) (MState i s cs) =
  match s with
  | c :: s' => if p c then [MState (S i) s' (cs ++ [[c]])] else []
  | [] => []
  end.
Proof.
  destruct s as [|c s']; [reflexivity|]. simpl.
  destruct (p c); [|reflexivity]. cbn [List.map pos rest caps].
  replace (S i - i) with 1 by lia. reflexivity.
Qed.

Lemma slu_unfold (a b : char) (s : str) :
  space_lower_upper (a :: b :: s) =
  if is_lower a && is_upper b
  then a :: SP :: b :: space_lower_upper s
  else a :: space_lower_upper (b :: s).
Proof. reflexivity. Qed.

(** The matcher on the lowercase-uppercase pattern, computed. *)
Lemma match_at_lower_upper (i : nat) (s : str) :
  match_at LOWER_UPPER i s =
  match s with
  | a :: b :: s' =>
      if is_lower a && is_upper b
      then Some (MState (S (S i)) s' [[a]; [b]])
      else None
  | _ => None
  end.
Proof.
  unfold match_at, LOWER_UPPER. rewrite ms_cat, ms_grp_cls.
  destruct s as [|a [|b s']]; [reflexivity| |].
  - destruct (is_lower a); reflexivity.
  - destruct (is_lower a); [|reflexivity].
    cbn [flat_map]. rewrite ms_grp_cls.
    destruct (is_upper b); [|reflexivity].
    cbn [app andb pos]. replace (i <? S (S i)) with true; [reflexivity|].
    symmetry. apply Nat.ltb_lt. lia.
Qed.

Lemma sub_lower_upper (fuel i : nat) (s : str) :
  length s < fuel ->
  sub_loop LOWER_UPPER [Ref 1; Txt [SP]; Ref 2] fuel i s = space_lower_upper s.
Proof.
  revert i s. induction fuel as [|fuel IH]; intros i s Hf; [lia|].
  rewrite sub_loop_S, match_at_lower_upper.
  destruct s as [|a [|b s']]; [reflexivity| |].
  - rewrite IH by (simpl in *; lia). reflexivity.
  - rewrite slu_unfold. destruct (is_lower a && is_upper b).
    + cbn [caps pos rest expand flat_map nth Nat.sub app].
      rewrite IH by (simpl in *; lia). reflexivity.
    + rewrite IH by (simpl in *; lia). reflexivity.
Qed.

(** The paragraph loop body, in terms of the one-scan pass. *)
Lemma clean_paragraph_eq (para : str) :
  clean_paragraph para = space_lower_upper (strip (replace LF SP para)).
Proof. unfold clean_paragraph, re_sub. apply sub_lower_upper. lia. Qed.

Lemma clean_paragraphs_map (paragraphs acc : list str) :
  clean_paragraphs paragraphs acc = acc ++ List.map clean_paragraph paragraphs.
Proof.
  revert acc. induction paragraphs as [|p ps IH]; intros acc; simpl.
  - symmetry. apply app_nil_r.
  - rewrite IH, <- app_assoc. reflexivity.
Qed.

(** *** The lowercase-uppercase pass *)

Lemma upper_not_lower (c : char) : is_upper c = true -> is_lower c = false.
Proof.
  unfold is_upper, is_lower, between. intros H.
  apply andb_true_iff in H as [_ H]. apply N.leb_le in H.
  apply andb_false_iff. left. apply N.leb_gt. lia.
Qed.

Lemma space_not_lower (c : char) : is_space c = true -> is_lower c = false.
Proof.
  intros H. destruct (is_lower c) eqn:E; [|reflexivity].
  unfold is_lower, between in E. apply andb_true_iff in E as [E1 E2].
  apply N.leb_le in E1, E2.
  unfold is_space, between in H.
  repeat (apply orb_true_iff in H as [H|H]);
    repeat (apply andb_true_iff in H as [? ?]);
    repeat match goal with
           | H : (_ <=? _)%N = true |- _ => apply N.leb_le in H
           | H : (_ =? _)%N = true |- _ => apply N.eqb_eq in H
           end; lia.
Qed.

Lemma space_not_upper (c : char) : is_space c = true -> is_upper c = false.
Proof.
  intros H. destruct (is_upper c) eqn:E; [|reflexivity].
  unfold is_upper, between in E. apply andb_true_iff in E as [E1 E2].
  apply N.leb_le in E1, E2.
  unfold is_space, between in H.
  repeat (apply orb_true_iff in H as [H|H]);
    repeat (apply andb_true_iff in H as [? ?]);
    repeat match goal with
           | H : (_ <=? _)%N = true |- _ => apply N.leb_le in H
           | H : (_ =? _)%N = true |- _ => apply N.eqb_eq in H
           end; lia.
Qed.

Lemma slu_cons (a : char) (s : str) :
  exists t, space_lower_upper (a :: s) = a :: t.
Proof.
  destruct s as [|b s]; simpl; [eexists; reflexivity|].
  destruct (is_lower a && is_upper b); eexists; reflexivity.
Qed.

(** In front of a character that is not uppercase, or after one that is
    not lowercase, the pass copies. *)
Lemma slu_copy (a : char) (s : str) :
  (is_lower a = false \/ match s with b :: _ => is_upper b = false | [] => True end) ->
  space_lower_upper (a :: s) = a :: space_lower_upper s.
Proof.
  intros H. destruct s as [|b s]; [reflexivity|]. rewrite slu_unfold.
  destruct H as [-> | ->]; [reflexivity|]. rewrite andb_false_r. reflexivity.
Qed.

Lemma slu_head_upper (s : str) :
  match space_lower_upper s with b :: _ => is_upper b | [] => false end
  = match s with b :: _ => is_upper b | [] => false end.
Proof.
  destruct s as [|a s]; [reflexivity|].
  destruct (slu_cons a s) as (t & ->). reflexivity.
Qed.

Lemma slu_idempotent_len (n : nat) (s : str) :
  length s < n ->
  space_lower_upper (space_lower_upper s) = space_lower_upper s.
Proof.
  revert s. induction n as [|n IH]; intros s Hn; [lia|].
  destruct s as [|a [|b s2]]; [reflexivity|reflexivity|].
  rewrite !(slu_unfold a b s2).
  destruct (is_lower a && is_upper b) eqn:E.
  - apply andb_true_iff in E as [Ha Hb].
    rewrite (slu_copy a (SP :: _)) by (right; reflexivity).
    rewrite (slu_copy SP (b :: _)) by (left; reflexivity).
    rewrite (slu_copy b (space_lower_upper s2))
      by (left; apply upper_not_lower, Hb).
    rewrite IH by (simpl in *; lia). reflexivity.
  - destruct (slu_cons b s2) as (t & Ht).
    rewrite (slu_copy a (space_lower_upper (b :: s2))).
    + rewrite IH by (simpl in *; lia). reflexivity.
    + rewrite Ht. apply andb_false_iff in E. tauto.
Qed.

Lemma slu_idempotent (s : str) :
  space_lower_upper (space_lower_upper s) = space_lower_upper s.
Proof. apply (slu_idempotent_len (S (length s))). lia. Qed.

Lemma slu_one_line_len (n : nat) (s : str) :
  length s < n -> one_line s -> one_line (space_lower_upper s).
Proof.
  unfold one_line. revert s. induction n as [|n IH]; intros s Hn Hs; [lia|].
  destruct s as [|a [|b s2]]; [reflexivity|exact Hs|].
  rewrite slu_unfold. cbn [forallb] in Hs.
  apply andb_true_iff in Hs as [Ha Hs]. apply andb_true_iff in Hs as [Hb Hs].
  destruct (is_lower a && is_upper b).
  - cbn [forallb]. rewrite Ha, Hb. change (negb (SP =? LF)%N) with true.
    cbn [andb]. apply IH; [simpl in *; lia|exact Hs].
  - cbn [forallb]. rewrite Ha. cbn [andb]. apply IH; [simpl in *; lia|].
    cbn [forallb]. rewrite Hb, Hs. reflexivity.
Qed.

Lemma slu_last_len (n : nat) (t : str) (c : char) :
  length t < n -> exists t', space_lower_upper (t ++ [c]) = t' ++ [c].
Proof.
  revert t. induction n as [|n IH]; intros t Hn; [lia|].
  destruct t as [|a [|b t2]].
  - exists []. reflexivity.
  - cbn [app]. rewrite slu_unfold. destruct (is_lower a && is_upper c).
    + exists [a; SP]. reflexivity.
    + exists [a]. reflexivity.
  - cbn [app]. rewrite slu_unfold. destruct (is_lower a && is_upper b).
    + destruct (IH t2) as (t' & ->); [simpl in *; lia|].
      exists (a :: SP :: b :: t'). reflexivity.
    + destruct (IH (b :: t2)) as (t' & Ht); [simpl in *; lia|].
      cbn [app] in Ht. rewrite Ht. exists (a :: t'). reflexivity.
Qed.

Lemma slu_nil (s : str) : space_lower_upper s = [] -> s = [].
Proof.
  destruct s as [|a s]; [reflexivity|].
  destruct (slu_cons a s) as (t & ->). discriminate.
Qed.

Lemma slu_trimmed (s : str) : trimmed s -> trimmed (space_lower_upper s).
Proof.
  intros [Hh Hl]. split.
  - intros c t E. destruct s as [|a s]; [discriminate|].
    destruct (slu_cons a s) as (t' & Ht). rewrite Ht in E.
    injection E as <- _. apply (Hh a s). reflexivity.
  - intros t c E. destruct (exists_last (l := s)) as (t0 & c0 & ->).
    { intros ->. destruct t; discriminate. }
    destruct (slu_last_len (S (length t0)) t0 c0) as (t' & Ht); [lia|].
    rewrite Ht in E. apply app_inj_tail in E as [_ <-].
    apply (Hl t0 c0). reflexivity.
Qed.

(** *** [strip] and [replace] *)

Lemma forallb_lstrip (P : char -> bool) (s : str) :
  forallb P s = true -> forallb P (lstrip s) = true.
Proof.
  induction s as [|c s IH]; simpl; [reflexivity|].
  intros H. pose proof H as H'. apply andb_true_iff in H as [_ H].
  destruct (is_space c); [apply IH, H|exact H'].
Qed.

Lemma forallb_strip (P : char -> bool) (s : str) :
  forallb P s = true -> forallb P (strip s) = true.
Proof.
  intros H. unfold strip, rstrip. rewrite forallb_rev.
  apply forallb_lstrip. rewrite forallb_rev. apply forallb_lstrip, H.
Qed.

Lemma lstrip_head (s : str) (c : char) (t : str) :
  lstrip s = c :: t -> is_space c = false.
Proof.
  induction s as [|a s IH]; simpl; [discriminate|].
  destruct (is_space a) eqn:E; [exact IH|].
  intros H. injection H as <- _. exact E.
Qed.

Lemma lstrip_snoc (s : str) (d : char) :
  is_space d = false -> lstrip (s ++ [d]) = lstrip s ++ [d].
Proof.
  intros Hd. induction s as [|a s IH]; simpl.
  - rewrite Hd. reflexivity.
  - destruct (is_space a); [exact IH|reflexivity].
Qed.

Lemma lstrip_fixed (s : str) :
  (forall c t, s = c :: t -> is_space c = false) -> lstrip s = s.
Proof.
  destruct s as [|c t]; [reflexivity|]. intros H. simpl.
  rewrite (H c t eq_refl). reflexivity.
Qed.

Lemma rstrip_fixed (s : str) :
  (forall t c, s = t ++ [c] -> is_space c = false) -> rstrip s = s.
Proof.
  intros H. unfold rstrip. rewrite lstrip_fixed; [apply rev_involutive|].
  intros c t E. apply (H (rev t) c).
  rewrite <- (rev_involutive s), E. reflexivity.
Qed.

Lemma strip_trimmed (s : str) : trimmed (strip s).
Proof.
  unfold strip. split.
  - intros c t E. destruct (lstrip s) as [|d l] eqn:El; [discriminate|].
    pose proof (lstrip_head _ _ _ El) as Hd.
    unfold rstrip in E. simpl in E. rewrite (lstrip_snoc _ _ Hd) in E.
    rewrite rev_app_distr in E. simpl in E. injection E as <- _. exact Hd.
  - intros t c E. unfold rstrip in E.
    apply (f_equal (@rev char)) in E.
    rewrite rev_involutive, rev_app_distr in E. simpl in E.
    apply (lstrip_head _ _ _ E).
Qed.

Lemma strip_fixed (s : str) : trimmed s -> strip s = s.
Proof.
  intros [Hh Hl]. unfold strip. rewrite (lstrip_fixed s Hh).
  apply rstrip_fixed, Hl.
Qed.

Lemma replace_one_line (s : str) : one_line (replace LF SP s).
Proof.
  unfold one_line, replace. induction s as [|c s IH]; simpl; [reflexivity|].
  rewrite IH, andb_true_r. destruct (N.eqb_spec c LF) as [->|Hne].
  - reflexivity.
  - apply negb_true_iff, N.eqb_neq, Hne.
Qed.

Lemma replace_fixed (s : str) : one_line s -> replace LF SP s = s.
Proof.
  unfold one_line, replace. induction s as [|c s IH]; simpl; [reflexivity|].
  intros H. apply andb_true_iff in H as [Hc Hs].
  apply negb_true_iff in Hc. rewrite Hc, (IH Hs). reflexivity.
Qed.

Lemma replace_spaces (s : str) :
  forallb is_space (replace LF SP s) = forallb is_space s.
Proof.
  unfold replace. induction s as [|c s IH]; simpl; [reflexivity|].
  rewrite IH. destruct (N.eqb_spec c LF) as [->|]; reflexivity.
Qed.

(** *** The paragraph loop body *)

Lemma clean_paragraph_reflowed (p : str) : reflowed (clean_paragraph p).
Proof.
  rewrite clean_paragraph_eq. split; [|split].
  - apply (slu_one_line_len (S (length (strip (replace LF SP p))))); [lia|].
    apply forallb_strip, replace_one_line.
  - apply slu_trimmed, strip_trimmed.
  - apply slu_idempotent.
Qed.

Lemma clean_paragraph_fixed (q : str) : reflowed q -> clean_paragraph q = q.
Proof.
  intros (H1 & H2 & H3).
  rewrite clean_paragraph_eq, (replace_fixed q H1), (strip_fixed q H2).
  exact H3.
Qed.

Lemma clean_paragraph_visible (p : str) :
  visible p -> clean_paragraph p <> [].
Proof.
  unfold visible. intros Hv E. rewrite clean_paragraph_eq in E.
  apply slu_nil, strip_nil in E. rewrite replace_spaces in E. congruence.
Qed.

(** *** The paragraph break pattern *)

Lemma after_last_newline_some (s r : str) :
  after_last_newline s = Some r ->
  after_last_newline r = None /\ length r < length s.
Proof.
  revert r. induction s as [|c s IH]; intros r; simpl; [discriminate|].
  destruct (is_space c); [|discriminate].
  destruct (after_last_newline s) as [r'|] eqn:E.
  - intros H. injection H as <-. destruct (IH r' eq_refl). split; [assumption|lia].
  - destruct (c =? LF)%N; [|discriminate].
    intros H. injection H as <-. split; [exact E|lia].
Qed.

Lemma not_space_not_newline (c : char) :
  is_space c = false -> (LF =? c)%N = false.
Proof.
  intros H. destruct (N.eqb_spec LF c) as [<-|]; [discriminate|reflexivity].
Qed.

(** After the newline, the whitespace is given back up to its last
    newline. *)
Lemma star_then_newline (j : nat) (s : str) (cs : list str) :
  match after_last_newline s with
  | Some r =>
      exists l, flat_map (ms (Lit LF)) (star is_space j s cs)
                = MState (j + (length s - length r)) r cs :: l
  | None => flat_map (ms (Lit LF)) (star is_space j s cs) = []
  end.
Proof.
  revert j. induction s as [|c s IH]; intros j.
  - reflexivity.
  - cbn [after_last_newline star]. destruct (is_space c) eqn:Hc.
    + rewrite flat_map_app. specialize (IH (S j)).
      destruct (after_last_newline s) as [r|] eqn:E.
      * destruct IH as (l & ->). apply after_last_newline_some in E as [_ E].
        eexists. cbn [app length]. f_equal. f_equal. lia.
      * rewrite IH. cbn [flat_map app]. rewrite ms_lit, (N.eqb_sym c LF).
        destruct (LF =? c)%N; [|reflexivity].
        eexists. cbn [app length]. f_equal. f_equal. lia.
    + cbn [flat_map]. rewrite ms_lit, (not_space_not_newline c Hc). reflexivity.
Qed.

(** The matcher on the paragraph-break pattern, computed. *)
Lemma match_at_para_break (i : nat) (s : str) :
  match_at PARA_BREAK i s = para_break_at i s.
Proof.
  unfold match_at, para_break_at, PARA_BREAK. rewrite ms_cat, ms_lit.
  destruct s as [|c s1]; [reflexivity|]. rewrite (N.eqb_sym c LF).
  destruct (LF =? c)%N; [|reflexivity].
  cbn [flat_map]. rewrite app_nil_r, ms_cat.
  change (ms (Star is_space) (MState (S i) s1 [])) with (star is_space (S i) s1 []).
  pose proof (star_then_newline (S i) s1 []) as H.
  destruct (after_last_newline s1) as [r|].
  - destruct H as (l & ->). cbn [pos].
    replace (i <? S i + (length s1 - length r)) with true; [reflexivity|].
    symmetry. apply Nat.ltb_lt. lia.
  - rewrite H. reflexivity.
Qed.

Lemma all_but_last_cons (P : str -> Prop) (p : str) (l : list str) :
  all_but_last P (p :: l) <-> (l <> [] -> P p) /\ all_but_last P l.
Proof.
  destruct l as [|q l]; simpl.
  - split; [intros _; split; [congruence|exact I]|intros _; exact I].
  - split; [intros [H1 H2]; split; [intros _; exact H1|exact H2]|].
    intros [H1 H2]. split; [apply H1; discriminate|exact H2].
Qed.

Lemma all_but_last_map (P Q : str -> Prop) (f : str -> str) (l : list str) :
  (forall p, P p -> Q (f p)) ->
  all_but_last P l -> all_but_last Q (List.map f l).
Proof.
  intros Hf. induction l as [|p l IH]; [intros _; exact I|].
  cbn [List.map]. rewrite !all_but_last_cons. intros [H1 H2].
  split; [|apply IH, H2]. intros Hne. apply Hf, H1.
  intros ->. apply Hne. reflexivity.
Qed.

(** The pieces [re.split] cuts at paragraph breaks: every piece between
    two breaks has a visible character. *)
Lemma split_para_pieces (n : nat) (s : str) (i : nat) :
  length s < n ->
  exists p ps,
    split_loop PARA_BREAK (S (length s)) i s = p :: ps
    /\ all_but_last visible ps
    /\ (after_last_newline s = None -> all_but_last visible (p :: ps)).
Proof.
  revert s i. induction n as [|n IH]; intros s i Hn; [lia|].
  rewrite split_loop_step by lia. rewrite match_at_para_break.
  destruct s as [|c s1].
  - exists [], []. repeat split.
  - unfold para_break_at. destruct (N.eqb_spec c LF) as [->|Hne].
    + destruct (after_last_newline s1) as [r|] eqn:E.
      * destruct (after_last_newline_some _ _ E) as [Hr Hl].
        cbn [rest pos].
        destruct (IH r (S i + (length s1 - length r))) as (p & ps & -> & H1 & H2);
          [simpl in *; lia|].
        exists [], (p :: ps). split; [reflexivity|]. split; [apply H2, Hr|].
        cbn [after_last_newline]. change (is_space LF) with true.
        rewrite E. discriminate.
      * destruct (IH s1 (S i)) as (p & ps & -> & H1 & H2); [simpl in *; lia|].
        exists (LF :: p), ps. split; [reflexivity|]. split; [exact H1|].
        intros _. apply all_but_last_cons. split; [|exact H1].
        intros Hps. specialize (H2 E). apply all_but_last_cons in H2.
        destruct H2 as [H2 _]. specialize (H2 Hps). unfold visible in *.
        cbn [forallb]. rewrite H2. apply andb_false_r.
    + destruct (IH s1 (S i)) as (p & ps & -> & H1 & H2); [simpl in *; lia|].
      exists (c :: p), ps. split; [reflexivity|]. split; [exact H1|].
      cbn [after_last_newline]. intros Ha.
      apply all_but_last_cons. split; [|exact H1].
      intros Hps. unfold visible. cbn [forallb].
      destruct (is_space c) eqn:Hc; [|reflexivity].
      destruct (after_last_newline s1) as [r|] eqn:E; [discriminate|].
      specialize (H2 eq_refl). apply all_but_last_cons in H2.
      destruct H2 as [H2 _]. apply (H2 Hps).
Qed.

Lemma fold_cons_hd (q p : str) (ps : list str) :
  fold_right cons_hd (p :: ps) q = (q ++ p) :: ps.
Proof.
  induction q as [|c q IH]; [reflexivity|]. simpl. rewrite IH. reflexivity.
Qed.

(** Inside a line there is no paragraph break. *)
Lemma split_para_line (q s : str) (i : nat) :
  one_line q ->
  split_loop PARA_BREAK (S (length (q ++ s))) i (q ++ s)
  = fold_right cons_hd
      (split_loop PARA_BREAK (S (length s)) (i + length q) s) q.
Proof.
  unfold one_line. revert i. induction q as [|c q IH]; intros i Hq.
  - cbn [app length fold_right]. rewrite Nat.add_0_r. reflexivity.
  - cbn [forallb] in Hq. apply andb_true_iff in Hq as [Hc Hq].
    apply negb_true_iff in Hc.
    rewrite split_loop_step by lia. rewrite match_at_para_break.
    cbn [app para_break_at]. rewrite Hc. cbn [fold_right]. f_equal.
    rewrite (IH (S i) Hq). f_equal. f_equal. simpl. lia.
Qed.

Lemma join_cons2 (sep p q : str) (l : list str) :
  join sep (p :: q :: l) = p ++ sep ++ join sep (q :: l).
Proof. reflexivity. Qed.

Lemma join_head (sep q : str) (l : list str) :
  exists t, join sep (q :: l) = q ++ t.
Proof.
  destruct l as [|q' l].
  - exists []. symmetry. apply app_nil_r.
  - eexists. apply join_cons2.
Qed.

(** Splitting the join of reflowed paragraphs gives them back. *)
Lemma split_join_reflowed (qs : list str) (i : nat) :
  qs <> [] ->
  Forall reflowed qs ->
  all_but_last (fun q => q <> []) (tl qs) ->
  split_loop PARA_BREAK (S (length (join [LF; LF] qs))) i (join [LF; LF] qs)
  = qs.
Proof.
  revert i. induction qs as [|q1 qs IH]; intros i Hne HF Hm; [congruence|].
  apply Forall_cons_iff in HF as [(H1 & _ & _) HF].
  destruct qs as [|q2 qs].
  - cbn [join]. rewrite <- (app_nil_r q1) at 1 2.
    rewrite (split_para_line q1 [] i H1). simpl.
    rewrite fold_cons_hd, app_nil_r. reflexivity.
  - rewrite join_cons2. rewrite (split_para_line q1 _ i H1).
    cbn [app]. rewrite split_loop_step by lia. rewrite match_at_para_break.
    cbn [para_break_at].
    change (LF =? LF)%N with true. cbn [after_last_newline].
    change (is_space LF) with true.
    cbn [tl] in Hm. apply all_but_last_cons in Hm as [Hq2 Hm].
    assert (Ha : after_last_newline (join [LF; LF] (q2 :: qs)) = None).
    { destruct q2 as [|c2 q2].
      - destruct qs as [|q3 qs]; [reflexivity|].
        exfalso. apply Hq2; [discriminate|reflexivity].
      - destruct (join_head [LF; LF] (c2 :: q2) qs) as (t & ->).
        apply Forall_cons_iff in HF as [(_ & [Hh _] & _) _].
        cbn [app after_last_newline]. rewrite (Hh c2 q2 eq_refl). reflexivity. }
    rewrite Ha. change (LF =? LF)%N with true. cbn [rest pos].
    rewrite IH; [|discriminate|exact HF|exact Hm].
    rewrite fold_cons_hd, app_nil_r. reflexivity.
Qed.

(** The paragraph reflow (lines 101-109: the split at blank lines, the
    cleaning of each paragraph and the rejoining) changes nothing on its
    own output. *)
Lemma reflow_reflow (text : str) : reflow (reflow text) = reflow text.
Proof.
  unfold reflow, re_split. rewrite !clean_paragraphs_map. cbn [app].
  destruct (split_para_pieces (S (length text)) text 0) as (p & ps & -> & Hm & _);
    [lia|].
  set (qs := List.map clean_paragraph (p :: ps)).
  assert (HF : Forall reflowed qs).
  { apply List.Forall_forall. intros q Hq.
    apply in_map_iff in Hq as (x & <- & _).
    apply clean_paragraph_reflowed. }
  rewrite split_join_reflowed.
  - f_equal. clear -HF. induction HF as [|q l Hq _ IH]; [reflexivity|].
    cbn [List.map]. rewrite IH, (clean_paragraph_fixed q Hq). reflexivity.
  - discriminate.
  - exact HF.
  - cbn [tl List.map qs].
    apply (all_but_last_map visible _ clean_paragraph ps); [|exact Hm].
    apply clean_paragraph_visible.
Qed.

(* ================================================================== *)
(** * The period pass *)
(* ================================================================== *)

Lemma space_periods_unfold (a b : char) (s : str) :
  space_periods (a :: b :: s) =
  if (a =? DOT)%N && is_upper b
  then a :: SP :: b :: space_periods s
  else a :: space_periods (b :: s).
Proof. reflexivity. Qed.

(** The matcher on the period pattern, computed. *)
Lemma match_at_dot_upper (i : nat) (s : str) :
  match_at DOT_UPPER i s =
  match s with
  | a :: b :: s' =>
      if (a =? DOT)%N && is_upper b
      then Some (MState (S (S i)) s' [[b]])
      else None
  | _ => None
  end.
Proof.
  unfold match_at, DOT_UPPER. rewrite ms_cat, ms_lit.
  destruct s as [|a [|b s']]; [reflexivity| |]; rewrite ?(N.eqb_sym a DOT).
  - destruct (DOT =? a)%N; reflexivity.
  - destruct (DOT =? a)%N; [|reflexivity].
    cbn [flat_map]. rewrite ms_grp_cls.
    destruct (is_upper b); [|reflexivity].
    cbn [app andb pos]. replace (i <? S (S i)) with true; [reflexivity|].
    symmetry. apply Nat.ltb_lt. lia.
Qed.

Lemma sub_dot_upper (fuel i : nat) (s : str) :
  length s < fuel ->
  sub_loop DOT_UPPER [Txt [DOT; SP]; Ref 1] fuel i s = space_periods s.
Proof.
  revert i s. induction fuel as [|fuel IH]; intros i s Hf; [lia|].
  rewrite sub_loop_S, match_at_dot_upper.
  destruct s as [|a [|b s']]; [reflexivity| |].
  - rewrite IH by (simpl in *; lia). reflexivity.
  - rewrite space_periods_unfold.
    destruct (N.eqb_spec a DOT) as [->|]; cbn [andb].
    + destruct (is_upper b).
      * cbn [caps pos rest expand flat_map nth Nat.sub app].
        rewrite IH by (simpl in *; lia). reflexivity.
      * rewrite IH by (simpl in *; lia). reflexivity.
    + rewrite IH by (simpl in *; lia). reflexivity.
Qed.

Lemma space_after_period_eq (text : str) :
  space_after_period text = space_periods text.
Proof. unfold space_after_period, re_sub. apply sub_dot_upper. lia. Qed.

Lemma space_periods_cons (a : char) (s : str) :
  exists t, space_periods (a :: s) = a :: t.
Proof.
  destruct s as [|b s]; [eexists; reflexivity|]. rewrite space_periods_unfold.
  destruct ((a =? DOT)%N && is_upper b); eexists; reflexivity.
Qed.

Lemma upper_not_dot (b : char) : is_upper b = true -> (b =? DOT)%N = false.
Proof.
  unfold is_upper, between. intros H. apply andb_true_iff in H as [H _].
  apply N.leb_le in H. apply N.eqb_neq. unfold DOT. lia.
Qed.

(** After the period pass no period stands before an uppercase letter. *)
Lemma space_periods_free_len (n : nat) (s : str) :
  length s < n -> dot_upper_free (space_periods s) = true.
Proof.
  revert s. induction n as [|n IH]; intros s Hn; [lia|].
  destruct s as [|a [|b s2]]; [reflexivity|reflexivity|].
  rewrite space_periods_unfold.
  destruct ((a =? DOT)%N && is_upper b) eqn:E.
  - apply andb_true_iff in E as [Ha Hb].
    cbn [dot_upper_free no_dot_upper_at].
    change (is_upper SP) with false. change (SP =? DOT)%N with false.
    rewrite andb_false_r. cbn [andb negb].
    rewrite IH by (simpl in *; lia). rewrite andb_true_r.
    unfold no_dot_upper_at. destruct (space_periods s2); [reflexivity|].
    rewrite (upper_not_dot b Hb). reflexivity.
  - destruct (space_periods_cons b s2) as (t & Ht).
    cbn [dot_upper_free]. rewrite IH by (simpl in *; lia).
    rewrite Ht. cbn [no_dot_upper_at]. rewrite E. reflexivity.
Qed.

(** A text without a period before an uppercase letter passes
    unchanged. *)
Lemma space_periods_fixed (s : str) :
  dot_upper_free s = true -> space_periods s = s.
Proof.
  induction s as [|a s IH]; [reflexivity|].
  cbn [dot_upper_free]. intros H. apply andb_true_iff in H as [Ha Hs].
  destruct s as [|b s]; [reflexivity|]. rewrite space_periods_unfold.
  cbn [no_dot_upper_at] in Ha. apply negb_true_iff in Ha. rewrite Ha.
  rewrite (IH Hs). reflexivity.
Qed.

(** *** What keeps periods and uppercase letters apart *)

Lemma dot_upper_free_app (p s : str) :
  dot_upper_free p = true -> dot_upper_free s = true ->
  match s with b :: _ => is_upper b = false | [] => True end ->
  dot_upper_free (p ++ s) = true.
Proof.
  intros Hp Hs Hb. induction p as [|a p IH]; [exact Hs|].
  cbn [dot_upper_free app] in *. apply andb_true_iff in Hp as [Ha Hp].
  rewrite (IH Hp), andb_true_r.
  destruct p as [|c p]; [|exact Ha].
  cbn [app]. destruct s as [|b s]; [reflexivity|].
  cbn [no_dot_upper_at]. rewrite Hb, andb_false_r. reflexivity.
Qed.

Lemma dot_upper_free_prefix (p w : str) :
  dot_upper_free (p ++ w) = true -> dot_upper_free p = true.
Proof.
  induction p as [|a p IH]; [reflexivity|].
  cbn [dot_upper_free app]. intros H. apply andb_true_iff in H as [Ha H].
  rewrite (IH H), andb_true_r.
  destruct p as [|c p]; [reflexivity|exact Ha].
Qed.

Lemma dot_upper_free_suffix (w s : str) :
  dot_upper_free (w ++ s) = true -> dot_upper_free s = true.
Proof.
  induction w as [|a w IH]; [auto|].
  cbn [dot_upper_free app]. intros H. apply andb_true_iff in H as [_ H].
  apply IH, H.
Qed.

Lemma lstrip_suffix (s : str) : exists w, s = w ++ lstrip s.
Proof.
  induction s as [|c s (w & IH)]; [exists []; reflexivity|]. simpl.
  destruct (is_space c); [|exists []; reflexivity].
  exists (c :: w). simpl. f_equal. exact IH.
Qed.

Lemma rstrip_prefix (s : str) : exists w, s = rstrip s ++ w.
Proof.
  unfold rstrip. destruct (lstrip_suffix (rev s)) as (w & Hw).
  exists (rev w). rewrite <- rev_app_distr, <- Hw. symmetry.
  apply rev_involutive.
Qed.

Lemma dot_upper_free_strip (s : str) :
  dot_upper_free s = true -> dot_upper_free (strip s) = true.
Proof.
  intros H. unfold strip.
  destruct (lstrip_suffix s) as (w & Hw). rewrite Hw in H.
  apply dot_upper_free_suffix in H.
  destruct (rstrip_prefix (lstrip s)) as (w' & Hw'). rewrite Hw' in H.
  apply dot_upper_free_prefix in H. exact H.
Qed.

Lemma dot_upper_free_replace (s : str) :
  dot_upper_free s = true -> dot_upper_free (replace LF SP s) = true.
Proof.
  unfold replace. induction s as [|a s IH]; [reflexivity|].
  cbn [dot_upper_free List.map]. intros H.
  apply andb_true_iff in H as [Ha H]. rewrite (IH H), andb_true_r.
  destruct s as [|b s]; [reflexivity|]. cbn [List.map no_dot_upper_at] in *.
  destruct (N.eqb_spec a LF) as [->|]; [reflexivity|].
  destruct (N.eqb_spec b LF) as [->|]; [|exact Ha].
  change (is_upper SP) with false. rewrite andb_false_r. reflexivity.
Qed.

Lemma no_dot_upper_at_slu (a : char) (s : str) :
  no_dot_upper_at a (space_lower_upper s) = no_dot_upper_at a s.
Proof.
  destruct s as [|b s]; [reflexivity|].
  destruct (slu_cons b s) as (t & ->). reflexivity.
Qed.

Lemma lower_not_dot (a : char) : is_lower a = true -> (a =? DOT)%N = false.
Proof.
  unfold is_lower, between. intros H. apply andb_true_iff in H as [H _].
  apply N.leb_le in H. apply N.eqb_neq. unfold DOT. lia.
Qed.

Lemma dot_upper_free_slu_len (n : nat) (s : str) :
  length s < n ->
  dot_upper_free s = true -> dot_upper_free (space_lower_upper s) = true.
Proof.
  revert s. induction n as [|n IH]; intros s Hn Hs; [lia|].
  destruct s as [|a [|b s2]]; [reflexivity|reflexivity|].
  rewrite slu_unfold. cbn [dot_upper_free] in Hs.
  apply andb_true_iff in Hs as [Ha Hs]. apply andb_true_iff in Hs as [Hb Hs].
  destruct (is_lower a && is_upper b) eqn:E.
  - cbn [dot_upper_free no_dot_upper_at].
    change (is_upper SP) with false. change (SP =? DOT)%N with false.
    rewrite andb_false_r. cbn [andb negb].
    rewrite IH by (simpl in *; lia || assumption).
    rewrite no_dot_upper_at_slu, Hb. reflexivity.
  - cbn [dot_upper_free].
    rewrite IH; [|simpl in *; lia|cbn [dot_upper_free]; rewrite Hb, Hs; reflexivity].
    rewrite no_dot_upper_at_slu, Ha. reflexivity.
Qed.

Lemma dot_upper_free_clean_paragraph (p : str) :
  dot_upper_free p = true -> dot_upper_free (clean_paragraph p) = true.
Proof.
  intros H. rewrite clean_paragraph_eq.
  apply (dot_upper_free_slu_len (S (length (strip (replace LF SP p))))); [lia|].
  apply dot_upper_free_strip, dot_upper_free_replace, H.
Qed.

Lemma dot_upper_free_join (qs : list str) :
  Forall (fun q => dot_upper_free q = true) qs ->
  dot_upper_free (join [LF; LF] qs) = true.
Proof.
  induction 1 as [|q qs Hq _ IH]; [reflexivity|].
  destruct qs as [|q2 qs]; [exact Hq|]. rewrite join_cons2.
  apply dot_upper_free_app; [exact Hq| |reflexivity].
  cbn [app dot_upper_free]. rewrite IH, andb_true_r.
  change (no_dot_upper_at LF (LF :: join [LF; LF] (q2 :: qs))) with true.
  unfold no_dot_upper_at. destruct (join [LF; LF] (q2 :: qs)); reflexivity.
Qed.

Lemma after_last_newline_suffix (s r : str) :
  after_last_newline s = Some r -> exists w, s = w ++ r.
Proof.
  revert r. induction s as [|c s IH]; intros r; simpl; [discriminate|].
  destruct (is_space c); [|discriminate].
  destruct (after_last_newline s) as [r'|].
  - intros H. injection H as <-. destruct (IH r' eq_refl) as (w & ->).
    exists (c :: w). reflexivity.
  - destruct (c =? LF)%N; [|discriminate].
    intros H. injection H as <-. exists [c]. reflexivity.
Qed.

(** The pieces of a text without a period before an uppercase letter
    have none either. *)
Lemma split_para_dot_upper_free (n : nat) (s : str) (i : nat) :
  length s < n ->
  dot_upper_free s = true ->
  exists p ps,
    split_loop PARA_BREAK (S (length s)) i s = p :: ps
    /\ Forall (fun q => dot_upper_free q = true) (p :: ps)
    /\ (forall a, no_dot_upper_at a s = true -> no_dot_upper_at a p = true).
Proof.
  revert s i. induction n as [|n IH]; intros s i Hn Hs; [lia|].
  rewrite split_loop_step by lia. rewrite match_at_para_break.
  destruct s as [|c s1].
  - exists [], []. split; [reflexivity|]. split; [repeat constructor|auto].
  - assert (Hcopy : exists p ps,
              cons_hd c (split_loop PARA_BREAK (S (length s1)) (S i) s1) = p :: ps
              /\ Forall (fun q => dot_upper_free q = true) (p :: ps)
              /\ (forall a, no_dot_upper_at a (c :: s1) = true ->
                            no_dot_upper_at a p = true)).
    { cbn [dot_upper_free] in Hs. apply andb_true_iff in Hs as [Hc Hs].
      destruct (IH s1 (S i)) as (p & ps & -> & HF & Hh);
        [simpl in *; lia|exact Hs|].
      exists (c :: p), ps. split; [reflexivity|].
      apply Forall_cons_iff in HF as [Hp HF]. split; [|auto].
      constructor; [|exact HF]. cbn [dot_upper_free].
      rewrite Hp, (Hh c Hc). reflexivity. }
    unfold para_break_at. destruct (c =? LF)%N; [|exact Hcopy].
    destruct (after_last_newline s1) as [r|] eqn:E; [|exact Hcopy].
    destruct (after_last_newline_some _ _ E) as [_ Hl].
    destruct (after_last_newline_suffix _ _ E) as (w & Hw).
    cbn [rest pos].
    destruct (IH r (S i + (length s1 - length r))) as (p & ps & -> & HF & _).
    + simpl in *; lia.
    + cbn [dot_upper_free] in Hs. apply andb_true_iff in Hs as [_ Hs].
      rewrite Hw in Hs. apply (dot_upper_free_suffix _ _ Hs).
    + exists [], (p :: ps). split; [reflexivity|].
      split; [constructor; [reflexivity|exact HF]|reflexivity].
Qed.

Lemma dot_upper_free_reflow (x : str) :
  dot_upper_free x = true -> dot_upper_free (reflow x) = true.
Proof.
  intros Hx. unfold reflow, re_split. rewrite clean_paragraphs_map. cbn [app].
  destruct (split_para_dot_upper_free (S (length x)) x 0) as (p & ps & -> & HF & _);
    [lia|exact Hx|].
  apply dot_upper_free_join.
  induction HF as [|q l Hq _ IH]; [constructor|].
  cbn [List.map]. constructor; [apply dot_upper_free_clean_paragraph, Hq|exact IH].
Qed.

(* ================================================================== *)
(** * Cleaning a cleaned text *)
(* ================================================================== *)

Section CleanTwice.
Context {U : UnicodeData}.

Lemma no_hyphen_break_at_nonword (a : char) (s : str) :
  is_word a = false -> no_hyphen_break_at a s = true.
Proof.
  intros Ha. destruct s as [|h [|l [|b t]]]; try reflexivity.
  cbn [no_hyphen_break_at]. rewrite Ha. reflexivity.
Qed.

Lemma hyphen_break_free_no_break (s : str) :
  hyphen_break_free s = true -> no_hyphen_break s.
Proof.
  intros H pre. revert s H.
  induction pre as [|c pre IH]; intros s H a b post E; subst s.
  - cbn [app hyphen_break_free no_hyphen_break_at] in H.
    apply andb_true_iff in H as [H _]. apply negb_true_iff in H.
    rewrite !N.eqb_refl, !andb_true_r in H.
    apply andb_false_iff in H. exact H.
  - cbn [app hyphen_break_free] in H. apply andb_true_iff in H as [_ H].
    apply (IH _ H a b post). reflexivity.
Qed.

(** A text without hyphenated line breaks passes the hyphenation pass
    unchanged. *)
Lemma fix_hyphenation_fixed (s : str) :
  hyphen_break_free s = true -> fix_hyphenation s = s.
Proof.
  intros H. apply (hyphen_joined_id s).
  - apply sub_hyphen_joined. lia.
  - apply hyphen_break_free_no_break, H.
Qed.

Lemma hyphen_break_free_line (q s : str) :
  one_line q ->
  hyphen_break_free s = true ->
  (s = [] \/ exists t, s = LF :: LF :: t) ->
  hyphen_break_free (q ++ s) = true.
Proof.
  unfold one_line. intros Hq Hs Hsh.
  induction q as [|c q IH]; [exact Hs|].
  cbn [forallb] in Hq. apply andb_true_iff in Hq as [_ Hq].
  cbn [app hyphen_break_free]. rewrite (IH Hq), andb_true_r.
  destruct q as [|h [|l q]].
  - cbn [app]. destruct Hsh as [->|(t & ->)]; [reflexivity|].
    destruct t as [|b t]; [reflexivity|]. cbn [no_hyphen_break_at].
    change (LF =? HYPHEN)%N with false. rewrite andb_false_r. reflexivity.
  - cbn [app]. destruct Hsh as [->|(t & ->)]; [reflexivity|].
    cbn [no_hyphen_break_at]. change (is_word LF) with false.
    rewrite andb_false_r. reflexivity.
  - cbn [forallb] in Hq. apply andb_true_iff in Hq as [_ Hq].
    apply andb_true_iff in Hq as [Hl _]. apply negb_true_iff in Hl.
    cbn [app]. destruct (q ++ s) as [|b t]; [reflexivity|].
    cbn [no_hyphen_break_at]. rewrite Hl, andb_false_r. reflexivity.
Qed.

(** Paragraphs on one line each, joined by blank lines, hold no
    hyphenated line break. *)
Lemma hyphen_break_free_join (qs : list str) :
  Forall one_line qs -> hyphen_break_free (join [LF; LF] qs) = true.
Proof.
  induction 1 as [|q qs Hq _ IH]; [reflexivity|].
  destruct qs as [|q2 qs].
  - cbn [join]. rewrite <- (app_nil_r q).
    apply hyphen_break_free_line; [exact Hq|reflexivity|left; reflexivity].
  - rewrite join_cons2. apply hyphen_break_free_line; [exact Hq| |].
    + cbn [app hyphen_break_free]. rewrite IH.
      rewrite !no_hyphen_break_at_nonword by reflexivity. reflexivity.
    + right. eexists. reflexivity.
Qed.

(** With the word-splitting pass off, a second cleaning can only change
    the cleaned text through the page-header removal. *)
Lemma clean_cleaned (wn : option (str -> list str)) (text : str) :
  let cleaned := clean_extracted_text false wn text in
  remove_page_headers cleaned = cleaned ->
  clean_extracted_text false wn cleaned = cleaned.
Proof.
  cbv zeta. unfold clean_extracted_text.
  set (x := space_after_period (fix_hyphenation (remove_page_headers text))).
  intros Hh. rewrite Hh.
  assert (Hx : dot_upper_free x = true).
  { unfold x. rewrite space_after_period_eq.
    apply (space_periods_free_len (S (length (fix_hyphenation (remove_page_headers text))))).
    lia. }
  assert (Hb : hyphen_break_free (reflow x) = true).
  { unfold reflow. rewrite clean_paragraphs_map. cbn [app].
    apply hyphen_break_free_join. apply List.Forall_forall. intros q Hq.
    apply in_map_iff in Hq as (y & <- & _).
    apply clean_paragraph_reflowed. }
  rewrite (fix_hyphenation_fixed _ Hb).
  rewrite space_after_period_eq, space_periods_fixed
    by apply dot_upper_free_reflow, Hx.
  apply reflow_reflow.
Qed.

(** C5 (as amended). The paragraph reflow is idempotent, and with the
    word-splitting pass off so is the cleaner on every text whose cleaned
    form the page-header removal leaves as it is: cleaning that cleaned
    form again changes nothing.  The condition holds, for instance, for a
    text with a sentence boundary, a merged word and a blank line. *)
Theorem cleaning_cleaned_text :
  (forall text, reflow (reflow text) = reflow text)
  /\ (forall wn text,
        let cleaned := clean_extracted_text false wn text in
        remove_page_headers cleaned = cleaned ->
        clean_extracted_text false wn cleaned = cleaned)
  /\ (let text := py "Hello.World fooBar" ++ [LF] ++ py "x" ++ [LF; LF] ++ py "y" in
      let cleaned := clean_extracted_text false None text in
      cleaned = py "Hello. World foo Bar x" ++ [LF; LF] ++ py "y"
      /\ remove_page_headers cleaned = cleaned).
Proof.
  split; [exact reflow_reflow|]. split; [exact clean_cleaned|].
  split; reflexivity.
Qed.

End CleanTwice.

(* ================================================================== *)
(** * The cleaner as a whole *)
(* ================================================================== *)

(** The patterns given to [re.sub] and [re.split] never match the empty
    string: every match [ms] lists for them is one [match_at] reports. *)
Lemma patterns_consume {U : UnicodeData} (r : regex) (st m : mstate) :
  In r [HYPHEN_BREAK; DOT_UPPER; PARA_BREAK; LOWER_UPPER] ->
  In m (ms r st) -> pos st < pos m.
Proof.
  intros Hr Hm. apply ms_matches in Hm. revert Hm. apply match_consumes.
  destruct Hr as [<-|[<-|[<-|[<-|[]]]]]; reflexivity.
Qed.

(** Without the word-splitting pass the cleaned text is a sequence of
    paragraphs, each on one line, trimmed and with its lowercase-uppercase
    boundaries spaced, joined by blank lines; only the first and the last
    can be empty. *)
Lemma clean_without_splitting {U : UnicodeData}
  (wn : option (str -> list str)) (text : str) :
  exists paragraphs,
    clean_extracted_text false wn text = join [LF; LF] paragraphs
    /\ paragraphs <> []
    /\ Forall reflowed paragraphs
    /\ all_but_last (fun q => q <> []) (tl paragraphs).
Proof.
  unfold clean_extracted_text, reflow, re_split.
  set (x := space_after_period _).
  rewrite clean_paragraphs_map. cbn [app].
  destruct (split_para_pieces (S (length x)) x 0) as (p & ps & -> & Hm & _);
    [lia|].
  exists (List.map clean_paragraph (p :: ps)). split; [reflexivity|].
  split; [discriminate|]. split.
  - apply List.Forall_forall. intros q Hq.
    apply in_map_iff in Hq as (y & <- & _). apply clean_paragraph_reflowed.
  - cbn [tl List.map].
    apply (all_but_last_map visible _ clean_paragraph ps); [|exact Hm].
    apply clean_paragraph_visible.
Qed.

(** C1. With the word-splitting pass on (and wordninja installed) the
    paragraph breaks the reflow has just written are lost: the pass splits
    the whole text at whitespace and joins the tokens with single spaces.
    Two one-word paragraphs come out as one line; with the pass off they
    stay two paragraphs. *)
Theorem word_splitting_joins_paragraphs {U : UnicodeData}
  (segment : str -> list str) :
  clean_extracted_text true (Some segment) (py "a" ++ [LF; LF] ++ py "b")
  = py "a b"
  /\ clean_extracted_text false (Some segment) (py "a" ++ [LF; LF] ++ py "b")
     = py "a" ++ [LF; LF] ++ py "b".
Proof. split; reflexivity. Qed.

(** Cleaning twice is not cleaning once, whatever the Unicode tables of
    the runtime. *)
Lemma clean_twice_differs_any_tables {U : UnicodeData} :
  clean_extracted_text false None (py "1/2" ++ [LF] ++ py "2024")
  = py "1/2 2024"
  /\ clean_extracted_text false None (py "1/2 2024") = [].
Proof. split; reflexivity. Qed.

(** C5, as stated, fails: two lines that the reflow joins into a line of
    the page-header shape are removed by a second cleaning; and a trailing
    blank paragraph is dropped by a second cleaning. *)
Lemma clean_twice_differs :
  let clean := clean_extracted_text (U := ascii_tables) false None in
  clean (py "1/2" ++ [LF] ++ py "2024") = py "1/2 2024"
  /\ clean (clean (py "1/2" ++ [LF] ++ py "2024")) = []
  /\ clean (py "a" ++ [LF; LF; LF]) = py "a" ++ [LF; LF]
  /\ clean (clean (py "a" ++ [LF; LF; LF])) = py "a".
Proof. repeat split. Qed.

(* ================================================================== *)
(** * The whole page handler on a document *)
(* ================================================================== *)

(** A digital document of two pages, ["Hello World."] and
    ["49/3 2024\nSecond page."]: the Markdown offered holds both texts and
    not the page-numbering line; the temporary file is gone and the user is
    told which extractor ran. *)
Example main_two_pages :
  let W := scripted
             (Ret [Ret (Some (py "Hello World."));
                   Ret (Some (py "49/3 2024" ++ [LF] ++ py "Second page."))])
             (Ret []) None in
  main (U := ascii_tables) (W := W)
    (Config false [] true 300 false) [] (Machine ∅ [])
  = (Machine ∅ [Info (py "Using pdfplumber for text extraction.")],
     Ret (Some ([LF; LF] ++ py "# Page 1" ++ [LF; LF] ++ py "Hello World."
                ++ [LF; LF] ++ py "# Page 2" ++ [LF; LF] ++ py "Second page."))).
Proof. vm_compute. reflexivity. Qed.

(* ================================================================== *)
(** * Faults and empty documents *)
(* ================================================================== *)

Section Faults.
Context {W : World}.



Lemma pdfplumber_loop_no_text (pages : list page) (n : nat) (text : str) :
  Forall (fun p => extract_text p = Ret None \/ extract_text p = Ret (Some []))
    pages ->
  pdfplumber_loop pages n text = (text, None).
Proof.
  intros H. revert n. induction H as [|p pages [Hp|Hp] _ IH]; intros n; simpl;
    [reflexivity| |]; rewrite Hp; apply IH.
Qed.

(** A document none of whose pages has a text, read without OCR, gives no
    result: [process_pdf] returns [None]. *)
Theorem process_pdf_no_text (cfg : config) (file_bytes : bytes) (m : machine)
  (pages : list page) :
  enable_ocr cfg = false ->
  pdfplumber_open (Some file_bytes) = Ret pages ->
  Forall (fun p => extract_text p = Ret None \/ extract_text p = Ret (Some []))
    pages ->
  snd (process_pdf cfg file_bytes m) = Ret None.
Proof.
  intros Hocr Hopen Hpages. rewrite process_pdf_result.
  unfold extract, extract_text_pdfplumber. rewrite Hocr, lookup_insert_eq, Hopen.
  rewrite (pdfplumber_loop_no_text pages 1 [] Hpages). reflexivity.
Qed.

End Faults.

Lemma process_pdf_no_text_witness :
  snd (process_pdf (W := scripted (Ret [Ret None; Ret (Some [])]) (Ret []) None)
         (Config false [] true 300 true) [] (Machine ∅ []))
  = Ret None.
Proof.
  apply (process_pdf_no_text (W := scripted (Ret [Ret None; Ret (Some [])]) (Ret []) None)
           _ _ _ [Ret None; Ret (Some [])]).
  - reflexivity.
  - reflexivity.
  - constructor; [left; reflexivity|].
    constructor; [right; reflexivity|]. constructor.
Defined.

(* ================================================================== *)
(** * What the page handler offers *)
(* ================================================================== *)

Section MainOutcomes.
Context {U : UnicodeData} {W : World}.

Lemma forallb_space_nil_or_cons (t : str) :
  forallb is_space t = false -> exists c t', t = c :: t'.
Proof. destruct t as [|c t']; [discriminate|]. intros _. eauto. Qed.

(** [main] offers Markdown exactly when the extraction returned a text
    with a visible character: the Markdown is the converted cleaning of that
    text, and the only notification added is the word-splitting warning.
    For a blank text it offers nothing and shows the error; an exception
    of the extraction passes through.  In each case the temporary file is
    gone. *)
Theorem main_outcomes (cfg : config) (uploaded_file : bytes) (m : machine) :
  let tmp := temp_name (disk m) in
  let extracted :=
    extract cfg (<[tmp := uploaded_file]> (disk m)) tmp (shown m) in
  let after := fst (main cfg uploaded_file m) in
  let result := snd (main cfg uploaded_file m) in
  disk after !! tmp = None
  /\ match snd extracted with
     | Raise e => result = Raise e /\ shown after = fst extracted
     | Ret t =>
         if forallb is_space t then
           result = Ret None
           /\ shown after
              = fst extracted
                ++ [Error (py "No text could be extracted from the PDF. It may be empty or an error occurred, nyah~.")]
         else
           result
           = Ret (Some (markdownify
                          (clean_extracted_text (split_words cfg) wordninja t)))
           /\ shown after
              = fst extracted
                ++ (if split_words cfg then split_warning wordninja else [])
     end.
Proof.
  cbv zeta. unfold main, process_pdf.
  destruct (extract _ _ _ _) as [notes [t|e]]; cbn [fst snd].
  - rewrite text_or_none_spec. destruct (forallb is_space t) eqn:E.
    + cbn [fst snd disk shown]. split; [|split; reflexivity].
      unfold unlink_if_exists. rewrite lookup_insert_eq. apply lookup_delete_eq.
    + destruct (forallb_space_nil_or_cons t E) as (c & t' & ->).
      cbn [fst snd disk shown]. split; [|split; reflexivity].
      unfold unlink_if_exists. rewrite lookup_insert_eq. apply lookup_delete_eq.
  - cbn [fst snd disk shown]. split; [|split; reflexivity].
    unfold unlink_if_exists. rewrite lookup_insert_eq. apply lookup_delete_eq.
Qed.

End MainOutcomes.

(* ================================================================== *)
(** * When there is no result *)
(* ================================================================== *)

(** A block is never blank: it holds its heading. *)
Lemma blocks_blank (bs : list (nat * str)) :
  forallb is_space (flat_map render_block bs) = true <-> bs = [].
Proof.
  destruct bs as [|b bs]; [split; reflexivity|].
  split; [|discriminate]. cbn [flat_map]. unfold render_block.
  cbn [app forallb]. change (is_space LF) with true. cbn [andb].
  destruct (py "# Page ") as [|c l] eqn:E; [discriminate|].
  injection E as <- _. cbn [app forallb].
  change (is_space (N_of_ascii "#")) with false. discriminate.
Qed.

Lemma text_or_none_blocks (bs : list (nat * str)) :
  text_or_none (flat_map render_block bs)
  = match bs with
    | [] => None
    | _ :: _ => Some (flat_map render_block bs)
    end.
Proof.
  rewrite text_or_none_spec.
  destruct (forallb is_space (flat_map render_block bs)) eqn:E.
  - apply blocks_blank in E. subst bs. reflexivity.
  - destruct bs; [discriminate|reflexivity].
Qed.

Section NoResult.
Context {W : World}.

(** Without OCR, what [process_pdf] returns for a document that pdfplumber
    opens is decided by the pages' blocks: [None] when no page before the
    first fault has a text, and otherwise the blocks; a page whose text is
    only whitespace counts as a page with text. *)
Theorem process_pdf_digital_result (cfg : config) (file_bytes : bytes)
  (m : machine) (pages : list page) (r : option str) :
  enable_ocr cfg = false ->
  pdfplumber_open (Some file_bytes) = Ret pages ->
  snd (process_pdf cfg file_bytes m) = Ret r ->
  r = match digital_blocks pages 1 with
      | [] => None
      | b :: bs => Some (flat_map render_block (b :: bs))
      end.
Proof.
  intros Hocr Hopen. rewrite process_pdf_result.
  unfold extract, extract_text_pdfplumber. rewrite Hocr, lookup_insert_eq, Hopen.
  pose proof (pdfplumber_loop_blocks pages 1 []) as H.
  destruct (pdfplumber_loop pages 1 []) as [text [e|]]; cbn [fst app] in H;
    subst text.
  - unfold pdfplumber_handler. destruct (is_Exception e); cbn [snd]; [|discriminate].
    rewrite text_or_none_blocks. intros E. injection E as <-.
    destruct (digital_blocks pages 1); reflexivity.
  - cbn [snd]. rewrite text_or_none_blocks. intros E. injection E as <-.
    destruct (digital_blocks pages 1); reflexivity.
Qed.

(** With OCR, what [process_pdf] returns for a document that is rasterized
    is decided by the recognized pages: [None] only when no page was
    recognized; a page recognized as empty text still gives a heading, and
    with it a result. *)
Theorem process_pdf_ocr_result (cfg : config) (file_bytes : bytes)
  (m : machine) (images : list image) (r : option str) :
  enable_ocr cfg = true ->
  convert_from_path (Some file_bytes) (ocr_dpi cfg) = Ret images ->
  snd (process_pdf cfg file_bytes m) = Ret r ->
  r = match ocr_blocks (tesseract_cmd cfg) images 0 with
      | [] => None
      | b :: bs => Some (flat_map render_block (b :: bs))
      end.
Proof.
  intros Hocr Hconv. rewrite process_pdf_result.
  unfold extract, extract_text_ocr. rewrite Hocr, lookup_insert_eq, Hconv.
  pose proof (ocr_loop_blocks cfg (tesseract_cmd cfg) images 0 []
                (log_info cfg (py "Using OCR for text extraction.") (shown m)))
    as H.
  destruct (snd (ocr_loop _ _ _ _ _ _)) as [text|e]; [|discriminate].
  cbn [app] in H. subst text. rewrite text_or_none_blocks.
  intros E. injection E as <-.
  destruct (ocr_blocks (tesseract_cmd cfg) images 0); reflexivity.
Qed.

End NoResult.

Lemma process_pdf_digital_result_witness :
  Some ([LF; LF] ++ py "# Page 2" ++ [LF; LF] ++ [SP])
  = match digital_blocks (W := scripted (Ret [Ret None; Ret (Some [SP])]) (Ret []) None)
            [Ret None; Ret (Some [SP])] 1 with
    | [] => None
    | b :: bs => Some (flat_map render_block (b :: bs))
    end.
Proof.
  apply (process_pdf_digital_result
           (W := scripted (Ret [Ret None; Ret (Some [SP])]) (Ret []) None)
           (Config false [] true 300 true) [] (Machine ∅ [])); reflexivity.
Defined.

Lemma process_pdf_ocr_result_witness :
  Some ([LF; LF] ++ py "# Page 1" ++ [LF; LF])
  = match ocr_blocks (W := scripted (Ret []) (Ret [Ret []]) None)
            (tesseract_cmd (Config true [] true 300 true)) [Ret []] 0 with
    | [] => None
    | b :: bs => Some (flat_map render_block (b :: bs))
    end.
Proof.
  apply (process_pdf_ocr_result
           (W := scripted (Ret []) (Ret [Ret []]) None)
           (Config true [] true 300 true) [] (Machine ∅ [])); reflexivity.
Defined.

(* ================================================================== *)
(** * What the extractors tell the user *)
(* ================================================================== *)

Section ExtractorNotes.
Context {W : World}.

Lemma filter_app_length {A} (f : A -> bool) (l1 l2 : list A) :
  length (List.filter f (l1 ++ l2))
  = length (List.filter f l1) + length (List.filter f l2).
Proof. rewrite List.filter_app, length_app. reflexivity. Qed.

Lemma ocr_loop_notes (cfg : config) (cmd : str) (images : list image)
  (i : nat) (text : str) (notes : list note) :
  (forall img e, In img images -> image_to_string cmd img = Raise e ->
                 is_Exception e = true) ->
  exists added out,
    ocr_loop cfg cmd images i text notes = (notes ++ added, Ret out)
    /\ length (List.filter is_info added)
       = (if show_logs cfg then length images else 0)
    /\ length (List.filter is_error added)
       = length (List.filter (recognition_fails cmd) images)
    /\ forallb (fun n => is_info n || is_error n) added = true.
Proof.
  revert i text notes.
  induction images as [|img images IH]; intros i text notes Hexn.
  - exists [], text. cbn [ocr_loop]. rewrite app_nil_r.
    destruct (show_logs cfg); repeat split.
  - assert (Hexn' : forall img' e, In img' images ->
              image_to_string cmd img' = Raise e -> is_Exception e = true).
    { intros img' e Hin. apply Hexn. right. exact Hin. }
    cbn [ocr_loop List.filter length]. unfold recognition_fails at 1.
    unfold log_info.
    destruct (image_to_string cmd img) as [t|e] eqn:Eimg.
    + destruct (show_logs cfg) eqn:El.
      * destruct (IH (S i) (ocr_step text i t)
                    (notes ++ [Info (py "Performing OCR on page " ++ str_of_nat (i + 1) ++ py "...")])
                    Hexn')
          as (added & out & -> & Hi & He & Ho).
        eexists (_ :: added), out. rewrite <- app_assoc.
        split; [reflexivity|]. cbn [List.filter is_info is_error length forallb orb].
        rewrite Hi, He, Ho. repeat split.
      * destruct (IH (S i) (ocr_step text i t) notes Hexn')
          as (added & out & -> & Hi & He & Ho).
        exists added, out. repeat split; assumption.
    + rewrite (Hexn img e (or_introl eq_refl) Eimg). unfold st_error.
      destruct (show_logs cfg) eqn:El.
      * destruct (IH (S i) text
                    ((notes ++ [Info (py "Performing OCR on page " ++ str_of_nat (i + 1) ++ py "...")])
                     ++ [Error (py "OCR failed on page " ++ str_of_nat (i + 1) ++ py ": " ++ message e)])
                    Hexn')
          as (added & out & -> & Hi & He & Ho).
        eexists (_ :: _ :: added), out. rewrite <- !app_assoc.
        split; [reflexivity|]. cbn [List.filter is_info is_error length forallb orb].
        rewrite Hi, He, Ho. repeat split.
      * destruct (IH (S i) text
                    (notes ++ [Error (py "OCR failed on page " ++ str_of_nat (i + 1) ++ py ": " ++ message e)])
                    Hexn')
          as (added & out & -> & Hi & He & Ho).
        eexists (_ :: added), out. rewrite <- !app_assoc.
        split; [reflexivity|]. cbn [List.filter is_info is_error length forallb orb].
        rewrite Hi, He, Ho. repeat split.
Qed.


(** When the document is rasterized and recognition raises nothing but
    [Exception]s, the OCR extractor returns a text and adds to the
    notifications one progress line per page if logging is on (none if it
    is off), one error per page whose recognition failed, and nothing
    else. *)
Theorem extract_text_ocr_notes (cfg : config) (fs : files) (pdf_file : string)
  (notes : list note) (images : list image) :
  convert_from_path (fs !! pdf_file) (ocr_dpi cfg) = Ret images ->
  (forall img e, In img images ->
     image_to_string (tesseract_cmd cfg) img = Raise e ->
     is_Exception e = true) ->
  exists added out,
    extract_text_ocr cfg fs pdf_file notes = (notes ++ added, Ret out)
    /\ length (List.filter is_info added)
       = (if show_logs cfg then length images else 0)
    /\ length (List.filter is_error added)
       = length (List.filter (recognition_fails (tesseract_cmd cfg)) images)
    /\ forallb (fun n => is_info n || is_error n) added = true.
Proof.
  intros Hconv Hexn. unfold extract_text_ocr. rewrite Hconv.
  apply ocr_loop_notes, Hexn.
Qed.


End ExtractorNotes.

Lemma extract_text_ocr_notes_witness :
  exists added out,
    extract_text_ocr
      (W := scripted (Ret []) (Ret [Ret (py "a"); Raise (Exn true (py "x"))]) None)
      (Config true [] true 300 true) ∅ "in.pdf"%string []
    = ([] ++ added, Ret out)
    /\ length (List.filter is_info added) = 2
    /\ length (List.filter is_error added) = 1
    /\ forallb (fun n => is_info n || is_error n) added = true.
Proof.
  apply (extract_text_ocr_notes
           (W := scripted (Ret []) (Ret [Ret (py "a"); Raise (Exn true (py "x"))]) None)
           (Config true [] true 300 true) ∅ "in.pdf"%string []
           [Ret (py "a"); Raise (Exn true (py "x"))]).
  - reflexivity.
  - intros img e [<-|[<-|[]]] H; [discriminate|].
    injection H as <-. reflexivity.
Defined.

(* ================================================================== *)
(** * The passes insert and remove only whitespace *)
(* ================================================================== *)

Lemma without_cons (p : char -> bool) (a : char) (s : str) :
  without p (a :: s) = (if p a then [] else [a]) ++ without p s.
Proof. unfold without. cbn [List.filter]. destruct (p a); reflexivity. Qed.

Lemma without_app (p : char -> bool) (s t : str) :
  without p (s ++ t) = without p s ++ without p t.
Proof. unfold without. apply List.filter_app. Qed.

Lemma without_all (p : char -> bool) (s : str) :
  forallb p s = true -> without p s = [].
Proof.
  induction s as [|a s IH]; [reflexivity|]. cbn [forallb]. intros H.
  apply andb_true_iff in H as [Ha H]. rewrite without_cons, Ha. apply IH, H.
Qed.

Lemma without_space_periods_len (p : char -> bool) (n : nat) (s : str) :
  p SP = true -> length s < n ->
  without p (space_periods s) = without p s.
Proof.
  intros Hp. revert s. induction n as [|n IH]; intros s Hn; [lia|].
  destruct s as [|a [|b s2]]; [reflexivity|reflexivity|].
  rewrite space_periods_unfold. destruct ((a =? DOT)%N && is_upper b).
  - rewrite !(without_cons p a), (without_cons p SP), !(without_cons p b), Hp.
    rewrite IH by (simpl in *; lia). reflexivity.
  - rewrite !(without_cons p a). rewrite IH by (simpl in *; lia). reflexivity.
Qed.

Lemma without_slu_len (p : char -> bool) (n : nat) (s : str) :
  p SP = true -> length s < n ->
  without p (space_lower_upper s) = without p s.
Proof.
  intros Hp. revert s. induction n as [|n IH]; intros s Hn; [lia|].
  destruct s as [|a [|b s2]]; [reflexivity|reflexivity|].
  rewrite slu_unfold. destruct (is_lower a && is_upper b).
  - rewrite !(without_cons p a), (without_cons p SP), !(without_cons p b), Hp.
    rewrite IH by (simpl in *; lia). reflexivity.
  - rewrite !(without_cons p a). rewrite IH by (simpl in *; lia). reflexivity.
Qed.

Lemma space_periods_length_len (n : nat) (s : str) :
  length s < n -> length s <= length (space_periods s).
Proof.
  revert s. induction n as [|n IH]; intros s Hn; [lia|].
  destruct s as [|a [|b s2]]; [simpl; lia|simpl; lia|].
  rewrite space_periods_unfold. destruct ((a =? DOT)%N && is_upper b).
  - specialize (IH s2). cbn [length] in *. lia.
  - specialize (IH (b :: s2)). cbn [length] in *. lia.
Qed.

(** The period pass (lines 98-99) leaves no period directly before an
    uppercase letter; it changes exactly the texts that have one; it is
    idempotent; and all it does is insert spaces: without its spaces the
    text is as it was, and never shorter. *)
Theorem space_after_period_inserts_spaces (text : str) :
  dot_upper_free (space_after_period text) = true
  /\ (space_after_period text = text <-> dot_upper_free text = true)
  /\ space_after_period (space_after_period text) = space_after_period text
  /\ without (N.eqb SP) (space_after_period text) = without (N.eqb SP) text
  /\ length text <= length (space_after_period text).
Proof.
  rewrite !space_after_period_eq.
  assert (Hfree : dot_upper_free (space_periods text) = true)
    by (apply (space_periods_free_len (S (length text))); lia).
  split; [exact Hfree|]. split.
  { split; [intros E; rewrite <- E; exact Hfree|apply space_periods_fixed]. }
  split; [apply space_periods_fixed, Hfree|]. split.
  - apply (without_space_periods_len _ (S (length text))); [reflexivity|lia].
  - apply (space_periods_length_len (S (length text))). lia.
Qed.

Lemma without_lstrip (s : str) :
  without is_space (lstrip s) = without is_space s.
Proof.
  induction s as [|a s IH]; [reflexivity|]. cbn [lstrip].
  destruct (is_space a) eqn:E; [|reflexivity].
  rewrite without_cons, E. exact IH.
Qed.

Lemma without_rev (p : char -> bool) (s : str) :
  without p (rev s) = rev (without p s).
Proof. unfold without. apply List.filter_rev. Qed.

Lemma without_strip (s : str) : without is_space (strip s) = without is_space s.
Proof.
  unfold strip, rstrip.
  rewrite without_rev, without_lstrip, without_rev, rev_involutive.
  apply without_lstrip.
Qed.

Lemma without_replace (s : str) :
  without is_space (replace LF SP s) = without is_space s.
Proof.
  unfold replace. induction s as [|a s IH]; [reflexivity|].
  cbn [List.map]. rewrite !without_cons, IH.
  destruct (N.eqb_spec a LF) as [->|]; reflexivity.
Qed.

Lemma without_clean_paragraph (p : str) :
  without is_space (clean_paragraph p) = without is_space p.
Proof.
  rewrite clean_paragraph_eq.
  rewrite (without_slu_len _ (S (length (strip (replace LF SP p)))));
    [|reflexivity|lia].
  rewrite without_strip. apply without_replace.
Qed.

Lemma no_lower_upper_at_slu (a : char) (s : str) :
  no_lower_upper_at a (space_lower_upper s) = no_lower_upper_at a s.
Proof.
  destruct s as [|b s]; [reflexivity|].
  destruct (slu_cons b s) as (t & ->). reflexivity.
Qed.

(** After the lowercase-uppercase pass no lowercase letter stands before
    an uppercase one. *)
Lemma slu_free_len (n : nat) (s : str) :
  length s < n -> lower_upper_free (space_lower_upper s) = true.
Proof.
  revert s. induction n as [|n IH]; intros s Hn; [lia|].
  destruct s as [|a [|b s2]]; [reflexivity|reflexivity|].
  rewrite slu_unfold. destruct (is_lower a && is_upper b) eqn:E.
  - apply andb_true_iff in E as [Ha Hb].
    cbn [lower_upper_free no_lower_upper_at].
    change (is_upper SP) with false. change (is_lower SP) with false.
    rewrite andb_false_r. cbn [andb negb].
    rewrite IH by (simpl in *; lia). rewrite andb_true_r.
    unfold no_lower_upper_at. destruct (space_lower_upper s2); [reflexivity|].
    rewrite (upper_not_lower b Hb). reflexivity.
  - cbn [lower_upper_free]. rewrite IH by (simpl in *; lia).
    rewrite no_lower_upper_at_slu. cbn [no_lower_upper_at]. rewrite E.
    reflexivity.
Qed.

(** The body of the paragraph loop (lines 105-107) gives a paragraph on
    one line, without whitespace at its ends and without a lowercase
    letter before an uppercase one; the paragraph is empty exactly when
    the text was blank; the body is idempotent; and it changes nothing but
    whitespace. *)
Theorem clean_paragraph_normal_form (para : str) :
  one_line (clean_paragraph para)
  /\ trimmed (clean_paragraph para)
  /\ lower_upper_free (clean_paragraph para) = true
  /\ (clean_paragraph para = [] <-> forallb is_space para = true)
  /\ clean_paragraph (clean_paragraph para) = clean_paragraph para
  /\ without is_space (clean_paragraph para) = without is_space para.
Proof.
  destruct (clean_paragraph_reflowed para) as (H1 & H2 & H3).
  split; [exact H1|]. split; [exact H2|]. split.
  { rewrite clean_paragraph_eq.
    apply (slu_free_len (S (length (strip (replace LF SP para))))). lia. }
  split.
  { split.
    - intros E. destruct (forallb is_space para) eqn:Hs; [reflexivity|].
      exfalso. exact (clean_paragraph_visible para Hs E).
    - intros Hs. rewrite clean_paragraph_eq.
      assert (E : strip (replace LF SP para) = [])
        by (apply strip_nil; rewrite replace_spaces; exact Hs).
      rewrite E. reflexivity. }
  split; [apply clean_paragraph_fixed; exact (conj H1 (conj H2 H3))|].
  apply without_clean_paragraph.
Qed.

Lemma after_last_newline_without (s r : str) :
  after_last_newline s = Some r -> without is_space s = without is_space r.
Proof.
  revert r. induction s as [|c s IH]; intros r; cbn [after_last_newline];
    [discriminate|].
  destruct (is_space c) eqn:Hc; [|discriminate].
  rewrite without_cons, Hc. cbn [app].
  destruct (after_last_newline s) as [r'|].
  - intros H. injection H as <-. apply IH. reflexivity.
  - destruct (c =? LF)%N; [|discriminate]. intros H. injection H as <-.
    reflexivity.
Qed.

Lemma split_para_without (n : nat) (s : str) (i : nat) :
  length s < n ->
  flat_map (without is_space) (split_loop PARA_BREAK (S (length s)) i s)
  = without is_space s.
Proof.
  revert s i. induction n as [|n IH]; intros s i Hn; [lia|].
  rewrite split_loop_step by lia. rewrite match_at_para_break.
  destruct s as [|c s1]; [reflexivity|].
  assert (Hcopy :
    flat_map (without is_space)
      (cons_hd c (split_loop PARA_BREAK (S (length s1)) (S i) s1))
    = without is_space (c :: s1)).
  { rewrite without_cons, <- (IH s1 (S i)) by (simpl in *; lia).
    destruct (split_loop PARA_BREAK (S (length s1)) (S i) s1) as [|p ps];
      cbn [cons_hd flat_map]; rewrite without_cons, <- ?app_assoc; reflexivity. }
  unfold para_break_at. destruct (N.eqb_spec c LF) as [->|]; [|exact Hcopy].
  destruct (after_last_newline s1) as [r|] eqn:E; [|exact Hcopy].
  destruct (after_last_newline_some _ _ E) as [_ Hl].
  cbn [rest pos flat_map]. rewrite IH by (simpl in *; lia).
  rewrite without_cons. change (is_space LF) with true.
  symmetry. apply (after_last_newline_without _ _ E).
Qed.

Lemma without_join (qs : list str) :
  without is_space (join [LF; LF] qs) = flat_map (without is_space) qs.
Proof.
  induction qs as [|q qs IH]; [reflexivity|].
  destruct qs as [|q2 qs].
  - cbn [join flat_map]. symmetry. apply app_nil_r.
  - rewrite join_cons2, !without_app, IH. reflexivity.
Qed.

Lemma flat_map_without_map (ps : list str) :
  flat_map (without is_space) (List.map clean_paragraph ps)
  = flat_map (without is_space) ps.
Proof.
  induction ps as [|p ps IH]; [reflexivity|].
  cbn [List.map flat_map]. rewrite IH, without_clean_paragraph. reflexivity.
Qed.

Lemma without_reflow (text : str) :
  without is_space (reflow text) = without is_space text.
Proof.
  unfold reflow, re_split. rewrite clean_paragraphs_map. cbn [app].
  rewrite without_join, flat_map_without_map.
  apply (split_para_without (S (length text))). lia.
Qed.

(** The paragraph reflow (lines 101-109) loses and alters no visible
    character: apart from whitespace its result is the text; a text
    without newline is one paragraph. *)
Theorem reflow_changes_only_whitespace (text : str) :
  without is_space (reflow text) = without is_space text
  /\ (one_line text -> reflow text = clean_paragraph text).
Proof.
  split; [apply without_reflow|].
  intros H. unfold reflow, re_split. rewrite clean_paragraphs_map. cbn [app].
  rewrite <- (app_nil_r text) at 1 2. rewrite (split_para_line text [] 0 H).
  cbn [length]. rewrite split_loop_S, match_at_para_break.
  cbn [para_break_at]. rewrite fold_cons_hd, app_nil_r. reflexivity.
Qed.

(* ================================================================== *)
(** * What the cleaned text looks like *)
(* ================================================================== *)



Section CleanedText.
Context {U : UnicodeData}.


End CleanedText.

(* ================================================================== *)
(** * The text after the page headers are removed *)
(* ================================================================== *)

Lemma join_cons_hd (c : char) (l : list str) :
  join [LF] (cons_hd c l) = c :: join [LF] l.
Proof. destruct l as [|p [|q l]]; reflexivity. Qed.

Lemma join_nil_cons (l : list str) :
  length (join [LF] ([] :: l)) <= S (length (join [LF] l)).
Proof. destruct l as [|p l]; simpl; lia. Qed.

(** Joined again, the lines are no longer than the text. *)
Lemma join_splitlines_length (n : nat) (s : str) :
  length s < n -> length (join [LF] (splitlines s)) <= length s.
Proof.
  revert s. induction n as [|n IH]; intros s Hn; [lia|].
  destruct s as [|c s']; [simpl; lia|]. cbn [splitlines].
  destruct (is_linebreak c).
  - destruct s' as [|d s'']; [simpl; lia|].
    destruct ((c =? CR)%N && (d =? LF)%N).
    + pose proof (join_nil_cons (splitlines s'')).
      specialize (IH s''). cbn [length] in *. lia.
    + pose proof (join_nil_cons (splitlines (d :: s''))).
      specialize (IH (d :: s'')). cbn [length] in *. lia.
  - rewrite join_cons_hd. specialize (IH s'). cbn [length] in *. lia.
Qed.

Lemma cons_hd_no_linebreak (c : char) (l : list str) :
  is_linebreak c = false -> Forall no_linebreak l ->
  Forall no_linebreak (cons_hd c l).
Proof.
  intros Hc Hl. destruct Hl as [|p ps Hp Hps]; cbn [cons_hd].
  - constructor; [|constructor]. unfold no_linebreak. cbn [forallb].
    rewrite Hc. reflexivity.
  - constructor; [|exact Hps]. unfold no_linebreak in *. cbn [forallb].
    rewrite Hc, Hp. reflexivity.
Qed.

(** The lines of a text hold no line boundary. *)
Lemma splitlines_no_linebreak (n : nat) (s : str) :
  length s < n -> Forall no_linebreak (splitlines s).
Proof.
  revert s. induction n as [|n IH]; intros s Hn; [lia|].
  destruct s as [|c s']; [constructor|]. cbn [splitlines].
  destruct (is_linebreak c) eqn:Hc.
  - constructor; [reflexivity|].
    destruct s' as [|d s'']; [constructor|].
    destruct ((c =? CR)%N && (d =? LF)%N); apply IH; simpl in *; lia.
  - apply cons_hd_no_linebreak; [exact Hc|]. apply IH. simpl in *; lia.
Qed.

Lemma splitlines_newline (r : str) : splitlines (LF :: r) = [] :: splitlines r.
Proof. destruct r; reflexivity. Qed.

(** A line and the text after its newline. *)
Lemma splitlines_line (q r : str) :
  no_linebreak q -> splitlines (q ++ LF :: r) = q :: splitlines r.
Proof.
  unfold no_linebreak. induction q as [|c q IH]; intros Hq.
  - apply splitlines_newline.
  - cbn [forallb] in Hq. apply andb_true_iff in Hq as [Hc Hq].
    apply negb_true_iff in Hc. cbn [app splitlines]. rewrite Hc, (IH Hq).
    reflexivity.
Qed.

Lemma splitlines_last_line (q : str) :
  no_linebreak q -> splitlines q = match q with [] => [] | _ => [q] end.
Proof.
  unfold no_linebreak. induction q as [|c q IH]; intros Hq; [reflexivity|].
  cbn [forallb] in Hq. apply andb_true_iff in Hq as [Hc Hq].
  apply negb_true_iff in Hc. cbn [splitlines]. rewrite Hc, (IH Hq).
  destruct q; reflexivity.
Qed.

(** Split again, joined lines give no new line. *)
Lemma splitlines_join_in (ls : list str) (l : str) :
  Forall no_linebreak ls ->
  In l (splitlines (join [LF] ls)) -> In l ls.
Proof.
  induction 1 as [|q ls Hq Hls IH]; [intros []|].
  destruct ls as [|q2 ls].
  - cbn [join]. rewrite (splitlines_last_line q Hq).
    destruct q; [intros []|intros H; exact H].
  - rewrite join_cons2. cbn [app]. rewrite (splitlines_line q _ Hq).
    intros [<-|H]; [left; reflexivity|right; apply IH, H].
Qed.

Lemma in_join (sep : str) (ls : list str) (c : char) :
  In c (join sep ls) -> In c sep \/ exists l, In l ls /\ In c l.
Proof.
  induction ls as [|q ls IH]; [intros []|].
  destruct ls as [|q2 ls].
  - cbn [join]. intros H. right. exists q. split; [left; reflexivity|exact H].
  - change (join sep (q :: q2 :: ls)) with (q ++ sep ++ join sep (q2 :: ls)).
    rewrite !in_app_iff. intros [H|[H|H]].
    + right. exists q. split; [left; reflexivity|exact H].
    + left. exact H.
    + destruct (IH H) as [H'|(l & Hl & Hc)]; [left; exact H'|].
      right. exists l. split; [right; exact Hl|exact Hc].
Qed.

Lemma join_length_tail (q : str) (ls : list str) :
  length (join [LF] ls) <= length (join [LF] (q :: ls)).
Proof.
  destruct ls as [|q2 ls]; [simpl; lia|].
  rewrite join_cons2, !length_app. lia.
Qed.

Section HeadersRemoved.
Context {U : UnicodeData}.

Lemma kept_lines_in (ls kept : list str) (l : str) :
  kept_lines ls kept -> In l kept -> In l ls /\ ~ header_shape l.
Proof.
  induction 1 as [|line lines kept Hs _ IH|line lines kept Hs _ IH].
  - intros [].
  - intros H. destruct (IH H). split; [right|]; assumption.
  - intros [<-|H]; [split; [left; reflexivity|exact Hs]|].
    destruct (IH H). split; [right|]; assumption.
Qed.

Lemma kept_lines_length (ls kept : list str) :
  kept_lines ls kept -> length (join [LF] kept) <= length (join [LF] ls).
Proof.
  induction 1 as [|line lines kept _ _ IH|line lines kept _ Hk IH].
  - lia.
  - pose proof (join_length_tail line lines). lia.
  - destruct kept as [|k kept]; [|destruct lines as [|l2 lines]].
    + destruct lines as [|l2 lines]; [lia|].
      rewrite join_cons2, length_app. cbn [join]. lia.
    + inversion Hk.
    + rewrite !join_cons2, !length_app. lia.
Qed.

(** What [remove_page_headers] returns holds no page-header line any
    more; its only line boundaries are newlines (the other boundaries of
    the text are replaced, a final one dropped); and it is never longer
    than the text. *)
Theorem remove_page_headers_result (text : str) :
  (forall line, In line (splitlines (remove_page_headers text)) ->
     In line (splitlines text) /\ ~ header_shape line)
  /\ (forall c, In c (remove_page_headers text) ->
        is_linebreak c = true -> c = LF)
  /\ length (remove_page_headers text) <= length text.
Proof.
  unfold remove_page_headers.
  destruct (filter_lines_kept (splitlines text) []) as (kept & -> & Hk).
  cbn [app].
  assert (Hnl : Forall no_linebreak kept).
  { apply List.Forall_forall. intros l Hl.
    destruct (kept_lines_in _ _ l Hk Hl) as [Hin _].
    pose proof (splitlines_no_linebreak (S (length text)) text (Nat.lt_succ_diag_r _)) as H.
    rewrite List.Forall_forall in H. apply H, Hin. }
  split; [|split].
  - intros line Hin. apply (kept_lines_in _ _ line Hk).
    apply (splitlines_join_in kept line Hnl Hin).
  - intros c Hc Hb. apply in_join in Hc as [[<-|[]]|(l & Hl & Hc)];
      [reflexivity|].
    rewrite List.Forall_forall in Hnl. specialize (Hnl l Hl).
    unfold no_linebreak in Hnl. rewrite forallb_forall in Hnl.
    specialize (Hnl c Hc). rewrite Hb in Hnl. discriminate.
  - pose proof (kept_lines_length _ _ Hk).
    pose proof (join_splitlines_length (S (length text)) text (Nat.lt_succ_diag_r _)).
    lia.
Qed.

End HeadersRemoved.

(* ================================================================== *)
(** * The word-splitting pass on short words *)
(* ================================================================== *)

Lemma split_ws_from_tokens (cur s : str) :
  forallb (fun c => negb (is_space c)) cur = true ->
  Forall token (split_ws_from cur s).
Proof.
  revert cur. induction s as [|c s IH]; intros cur Hcur.
  - cbn [split_ws_from]. destruct cur as [|a cur]; [constructor|].
    constructor; [|constructor]. split.
    + intros E. apply (f_equal (@length char)) in E.
      rewrite length_rev in E. discriminate.
    + rewrite forallb_rev. exact Hcur.
  - cbn [split_ws_from]. destruct (is_space c) eqn:Hc.
    + destruct cur as [|a cur]; [apply IH; reflexivity|].
      constructor; [|apply IH; reflexivity]. split.
      * intros E. apply (f_equal (@length char)) in E.
        rewrite length_rev in E. discriminate.
      * rewrite forallb_rev. exact Hcur.
    + apply IH. cbn [forallb]. rewrite Hc, Hcur. reflexivity.
Qed.

Lemma split_ws_from_token (w cur s : str) :
  forallb (fun c => negb (is_space c)) w = true ->
  split_ws_from cur (w ++ s) = split_ws_from (rev w ++ cur) s.
Proof.
  revert cur. induction w as [|c w IH]; intros cur Hw; [reflexivity|].
  cbn [forallb] in Hw. apply andb_true_iff in Hw as [Hc Hw].
  apply negb_true_iff in Hc. cbn [app split_ws_from]. rewrite Hc, (IH _ Hw).
  cbn [rev]. rewrite <- app_assoc. reflexivity.
Qed.

(** Splitting tokens joined by single spaces gives the tokens back. *)
Lemma split_ws_join (ws : list str) :
  Forall token ws -> split_ws (join [SP] ws) = ws.
Proof.
  unfold split_ws. induction 1 as [|w ws [Hne Hw] _ IH]; [reflexivity|].
  assert (Hrev : rev w <> []).
  { intros E. apply Hne. rewrite <- (rev_involutive w), E. reflexivity. }
  destruct ws as [|w2 ws].
  - cbn [join]. rewrite <- (app_nil_r w) at 1.
    rewrite (split_ws_from_token w [] [] Hw), app_nil_r. cbn [split_ws_from].
    destruct (rev w) eqn:E; [congruence|]. rewrite <- E, rev_involutive.
    reflexivity.
  - change (join [SP] (w :: w2 :: ws)) with (w ++ SP :: join [SP] (w2 :: ws)).
    rewrite (split_ws_from_token w [] _ Hw), app_nil_r. cbn [split_ws_from].
    change (is_space SP) with true. cbv iota.
    destruct (rev w) eqn:E; [congruence|]. rewrite <- E, rev_involutive, IH.
    reflexivity.
Qed.

Lemma split_ws_from_blank (s : str) :
  forallb is_space s = true -> split_ws_from [] s = [].
Proof.
  induction s as [|c s IH]; [reflexivity|]. cbn [forallb split_ws_from].
  intros H. apply andb_true_iff in H as [-> H]. apply IH, H.
Qed.

Lemma split_each_short (segment : str -> list str) (words acc : list str) :
  Forall (fun w => length w <= 15) words ->
  split_each segment words acc = acc ++ words.
Proof.
  intros H. revert acc. induction H as [|w words Hw _ IH]; intros acc.
  - symmetry. apply app_nil_r.
  - cbn [split_each]. replace (15 <? length w) with false
      by (symmetry; apply Nat.ltb_ge; exact Hw).
    rewrite IH, <- app_assoc. reflexivity.
Qed.

(** When no word of the text has more than 15 characters, the
    word-splitting pass (with wordninja installed) never asks the
    segmenter: it returns the words joined by single spaces, whatever
    whitespace separated them, keeps the words, and changes nothing when
    run again; a blank text comes out empty. *)
Theorem split_concatenated_words_short (segment : str -> list str)
  (text : str) :
  Forall (fun w => length w <= 15) (split_ws text) ->
  let out := split_concatenated_words (Some segment) text in
  out = join [SP] (split_ws text)
  /\ split_ws out = split_ws text
  /\ split_concatenated_words (Some segment) out = out
  /\ (forallb is_space text = true -> out = []).
Proof.
  intros Hshort. cbv zeta. unfold split_concatenated_words.
  rewrite (split_each_short segment _ [] Hshort). cbn [app].
  assert (Hsplit : split_ws (join [SP] (split_ws text)) = split_ws text)
    by (apply split_ws_join, split_ws_from_tokens; reflexivity).
  split; [reflexivity|]. split; [exact Hsplit|]. split.
  - rewrite Hsplit, (split_each_short segment _ [] Hshort). reflexivity.
  - intros Hb. unfold split_ws. rewrite (split_ws_from_blank text Hb).
    reflexivity.
Qed.

Lemma split_concatenated_words_short_witness :
  let segment (w : str) := [w; w] in
  let text := [SP; LF] ++ py "two" ++ [LF; LF] ++ py "words" ++ [SP] in
  let out := split_concatenated_words (Some segment) text in
  out = join [SP] (split_ws text)
  /\ split_ws out = split_ws text
  /\ split_concatenated_words (Some segment) out = out
  /\ (forallb is_space text = true -> out = []).
Proof.
  apply (split_concatenated_words_short (fun w => [w; w])).
  repeat constructor.
Defined.

(* ================================================================== *)
(** * A document that cannot be read *)
(* ================================================================== *)

Section DocumentFault.
Context {W : World}.

(** When the document itself cannot be read (pdfplumber cannot open it,
    or with OCR the rasterizer fails) and the fault is an [Exception],
    [process_pdf] raises nothing: it shows the error after its log line
    and returns [None]. *)
Theorem process_pdf_document_fault (cfg : config) (file_bytes : bytes)
  (m : machine) (e : exn) :
  is_Exception e = true ->
  (if enable_ocr cfg
   then convert_from_path (Some file_bytes) (ocr_dpi cfg) = Raise e
   else pdfplumber_open (Some file_bytes) = Raise e) ->
  snd (process_pdf cfg file_bytes m) = Ret None
  /\ shown (fst (process_pdf cfg file_bytes m))
     = if enable_ocr cfg
       then log_info cfg (py "Using OCR for text extraction.") (shown m)
            ++ [Error (py "Error converting PDF to images: " ++ message e)]
       else log_info cfg (py "Using pdfplumber for text extraction.") (shown m)
            ++ [Error (py "Error extracting text with pdfplumber: " ++ message e)].
Proof.
  intros He Hfault. unfold process_pdf, extract.
  destruct (enable_ocr cfg).
  - unfold extract_text_ocr. rewrite lookup_insert_eq, Hfault, He.
    split; reflexivity.
  - unfold extract_text_pdfplumber, pdfplumber_handler.
    rewrite lookup_insert_eq, Hfault, He. split; reflexivity.
Qed.

End DocumentFault.

Lemma process_pdf_document_fault_witness :
  let W := scripted (Ret []) (Raise (Exn true (py "not a PDF"))) None in
  let cfg := Config true [] false 300 true in
  snd (process_pdf (W := W) cfg [] (Machine ∅ [])) = Ret None
  /\ shown (fst (process_pdf (W := W) cfg [] (Machine ∅ [])))
     = if enable_ocr cfg
       then log_info cfg (py "Using OCR for text extraction.") []
            ++ [Error (py "Error converting PDF to images: "
                       ++ message (Exn true (py "not a PDF")))]
       else log_info cfg (py "Using pdfplumber for text extraction.") []
            ++ [Error (py "Error extracting text with pdfplumber: "
                       ++ message (Exn true (py "not a PDF")))].
Proof.
  apply (process_pdf_document_fault
           (W := scripted (Ret []) (Raise (Exn true (py "not a PDF"))) None)
           (Config true [] false 300 true) [] (Machine ∅ [])
           (Exn true (py "not a PDF")));
    reflexivity.
Defined.

(* ================================================================== *)
(** * The word-splitting pass and line breaks *)
(* ================================================================== *)

Lemma token_one_line (w : str) :
  forallb (fun c => negb (is_space c)) w = true -> one_line w.
Proof.
  unfold one_line. induction w as [|c w IH]; [reflexivity|].
  cbn [forallb]. intros H. apply andb_true_iff in H as [Hc H].
  rewrite (IH H), andb_true_r. apply negb_true_iff.
  destruct (N.eqb_spec c LF) as [->|]; [discriminate|reflexivity].
Qed.

Lemma one_line_app (s t : str) : one_line s -> one_line t -> one_line (s ++ t).
Proof.
  unfold one_line. intros Hs Ht. rewrite forallb_app.
  apply andb_true_iff. split; assumption.
Qed.

Lemma one_line_join_space (ws : list str) :
  Forall one_line ws -> one_line (join [SP] ws).
Proof.
  induction 1 as [|w ws Hw _ IH]; [reflexivity|].
  destruct ws as [|w2 ws]; [exact Hw|].
  change (join [SP] (w :: w2 :: ws)) with (w ++ [SP] ++ join [SP] (w2 :: ws)).
  apply one_line_app; [exact Hw|]. apply one_line_app; [reflexivity|exact IH].
Qed.

Lemma split_each_one_line (segment : str -> list str) (words acc : list str) :
  (forall w, Forall one_line (segment w)) ->
  Forall one_line words -> Forall one_line acc ->
  Forall one_line (split_each segment words acc).
Proof.
  intros Hseg Hw. revert acc. induction Hw as [|w words Hw _ IH]; intros acc Hacc.
  - exact Hacc.
  - cbn [split_each].
    assert (H1 : Forall one_line (acc ++ [w])).
    { apply Forall_app. split; [exact Hacc|]. constructor; [exact Hw|constructor]. }
    assert (H2 : Forall one_line (acc ++ [join [SP] (segment w)])).
    { apply Forall_app. split; [exact Hacc|].
      constructor; [apply one_line_join_space, Hseg|constructor]. }
    destruct (15 <? length w); [|apply IH, H1].
    destruct ((1 <? length (segment w))
              && negb (str_eqb (join [SP] (segment w)) w)); apply IH; assumption.
Qed.

Section Flattening.
Context {U : UnicodeData}.

(** With wordninja installed and pieces that hold no line break, the text
    the word-splitting pass returns is on one line, whatever the text was:
    with the pass on, the cleaned text never has a paragraph break. *)
Theorem split_concatenated_words_one_line (segment : str -> list str)
  (text : str) :
  (forall w, Forall one_line (segment w)) ->
  one_line (split_concatenated_words (Some segment) text)
  /\ one_line (clean_extracted_text true (Some segment) text).
Proof.
  intros Hseg.
  assert (H : forall t, one_line (split_concatenated_words (Some segment) t)).
  { intros t. unfold split_concatenated_words. apply one_line_join_space.
    apply split_each_one_line; [exact Hseg| |constructor].
    pose proof (split_ws_from_tokens [] t eq_refl) as Ht.
    eapply Forall_impl; [exact Ht|]. intros w [_ Hw]. apply token_one_line, Hw. }
  split; [apply H|]. unfold clean_extracted_text. apply H.
Qed.

End Flattening.

Lemma split_concatenated_words_one_line_witness :
  let segment (w : str) := [py "concatenated"; py "words"] in
  let text := py "a" ++ [LF; LF] ++ py "concatenatedwords" in
  one_line (split_concatenated_words (Some segment) text)
  /\ one_line (clean_extracted_text (U := ascii_tables) true (Some segment) text).
Proof.
  apply (split_concatenated_words_one_line (U := ascii_tables)
           (fun _ => [py "concatenated"; py "words"])).
  intros w. repeat constructor.
Defined.
